(** * app.py: rate limiter, chat history, cached price lookup, agent route

    A shallow embedding of [src/app.py].  The Redis server, the in-process
    aiocache store, the CoinGecko endpoint and the Together client are the
    program's collaborators; they are modelled by an explicit world state
    (Redis data base, cache, clock, logs) and by section variables (the
    HTTP endpoint, the chat model).

    Conventions.
    - Time is a rational number of seconds ([Q]).  Python's [float]
      arithmetic is idealised as exact arithmetic.
    - Text is ASCII: [lower], [capitalize] and [strip] act on the ASCII
      letters and the ASCII white space, as Python's methods do on ASCII
      text; Python treats the other Unicode letters and spaces too.
    - A Redis list element is a string on the wire.  [RNum t] stands for
      the decimal text of the float [t] (what [rpush(key, current_time)]
      stores and [float(...)] reads back); [RText s] is any other text. *)

From Stdlib Require Import Ascii QArith Lqa.
From stdpp Require Import base option list sorting strings gmap.

Close Scope Q_scope.

(** ** Python string methods used by the program *)
Module PyStr.

Definition isupper (c : ascii) : bool :=
  let n := nat_of_ascii c in (65 <=? n)%nat && (n <=? 90)%nat.

Definition islower (c : ascii) : bool :=
  let n := nat_of_ascii c in (97 <=? n)%nat && (n <=? 122)%nat.

(* str.isspace on one character: TAB, LF, VT, FF, CR, FS, GS, RS, US, SPACE *)
Definition isspace (c : ascii) : bool :=
  let n := nat_of_ascii c in
  ((9 <=? n)%nat && (n <=? 13)%nat) || ((28 <=? n)%nat && (n <=? 32)%nat).

Definition lower_char (c : ascii) : ascii :=
  if isupper c then ascii_of_nat (nat_of_ascii c + 32) else c.

Definition upper_char (c : ascii) : ascii :=
  if islower c then ascii_of_nat (nat_of_ascii c - 32) else c.

(* s.lower() *)
Fixpoint lower (s : string) : string :=
  match s with
  | EmptyString => EmptyString
  | String c r => String (lower_char c) (lower r)
  end.

(* s.capitalize() *)
Definition capitalize (s : string) : string :=
  match s with
  | EmptyString => EmptyString
  | String c r => String (upper_char c) (lower r)
  end.

(* s.lstrip() *)
Fixpoint lstrip (s : string) : string :=
  match s with
  | EmptyString => EmptyString
  | String c r => if isspace c then lstrip r else s
  end.

(* s.rstrip() *)
Fixpoint rstrip (s : string) : string :=
  match s with
  | EmptyString => EmptyString
  | String c r =>
      match rstrip r with
      | EmptyString => if isspace c then EmptyString else String c EmptyString
      | r' => String c r'
      end
  end.

(* s.strip() *)
Definition strip (s : string) : string := rstrip (lstrip s).

(* s[n:] *)
Fixpoint drop_chars (n : nat) (s : string) : string :=
  match n, s with
  | O, _ => s
  | S _, EmptyString => EmptyString
  | S k, String _ r => drop_chars k r
  end.

(* sub in s *)
Fixpoint contains (sub s : string) : bool :=
  String.prefix sub s ||
  match s with
  | EmptyString => false
  | String _ r => contains sub r
  end.

(* The scan of s.replace(old, new) for a non-empty [old]: [skip] counts the
   characters of a match that are still to be passed over. *)
Fixpoint replace_scan (old new : string) (skip : nat) (s : string) : string :=
  match s with
  | EmptyString => EmptyString
  | String c r =>
      match skip with
      | S k => replace_scan old new k r
      | O =>
          if String.prefix old s
          then new +:+ replace_scan old new (String.length old - 1) r
          else String c (replace_scan old new 0 r)
      end
  end.

(* s.replace("", new): [new] before every character and at the end *)
Fixpoint interleave (new s : string) : string :=
  match s with
  | EmptyString => new
  | String c r => new +:+ String c (interleave new r)
  end.

(* s.replace(old, new) *)
Definition replace (old new s : string) : string :=
  match old with
  | EmptyString => interleave new s
  | _ => replace_scan old new 0 s
  end.

(* s.split(sep, 1) when [sep] occurs in [s]: the text before the first
   occurrence and the text after it; [None] when [sep] does not occur
   (Python then returns the one-element list [s]). *)
Fixpoint split_once (sep s : string) : option (string * string) :=
  if String.prefix sep s
  then Some (EmptyString, drop_chars (String.length sep) s)
  else
    match s with
    | EmptyString => None
    | String c r =>
        match split_once sep r with
        | Some (a, b) => Some (String c a, b)
        | None => None
        end
    end.

End PyStr.

(** ** Rational comparisons as booleans *)

Definition Qltb (x y : Q) : bool := negb (Qle_bool y x).

(** ** The Redis server: lists with expiry *)
Module Redis.

Inductive rval : Type :=
| RNum (t : Q)
| RText (s : string).

Record db : Type := Db {
  lists : gmap string (list rval);
  expires : gmap string Q   (* absolute deadline of a key, when it has one *)
}.

Definition empty : db := Db ∅ ∅.

(* A key whose deadline has been reached is gone. *)
Definition expired (now : Q) (d : db) (key : string) : bool :=
  match expires d !! key with
  | Some deadline => Qle_bool deadline now
  | None => false
  end.

Definition lookup_key (now : Q) (d : db) (key : string) : option (list rval) :=
  if expired now d key then None else lists d !! key.

Definition remove_key (key : string) (d : db) : db :=
  Db (delete key (lists d)) (delete key (expires d)).

(* Storing a list under a key: an empty list removes the key; a key that
   did not exist (or had expired) starts without a deadline. *)
Definition write_key (now : Q) (key : string) (l : list rval) (d : db) : db :=
  match l with
  | [] => remove_key key d
  | _ =>
      Db (<[key := l]> (lists d))
         (match lookup_key now d key with
          | Some _ => expires d
          | None => delete key (expires d)
          end)
  end.

(* Index normalisation shared by LRANGE and LTRIM: negative indices count
   from the end, the range is clamped to the list, [None] is the empty
   range. *)
Definition range_bounds (len start stop : Z) : option (Z * Z) :=
  let start := if (start <? 0)%Z then (len + start)%Z else start in
  let stop := if (stop <? 0)%Z then (len + stop)%Z else stop in
  let start := if (start <? 0)%Z then 0%Z else start in
  if (stop <? start)%Z || (len <=? start)%Z then None
  else Some (start, if (len <=? stop)%Z then (len - 1)%Z else stop).

Definition slice {A} (start stop : Z) (l : list A) : list A :=
  match range_bounds (Z.of_nat (length l)) start stop with
  | None => []
  | Some (s, e) => take (Z.to_nat (e - s + 1)) (drop (Z.to_nat s) l)
  end.

Inductive command : Type :=
| LRANGE (key : string) (start stop : Z)
| RPUSH (key : string) (values : list rval)
| LTRIM (key : string) (start stop : Z)
| EXPIRE (key : string) (seconds : Q).

Inductive reply : Type :=
| Items (l : list rval)
| Count (n : nat)
| Flag (b : bool).

Definition stored (now : Q) (d : db) (key : string) : list rval :=
  default [] (lookup_key now d key).

Definition run_command (now : Q) (c : command) (d : db) : reply * db :=
  match c with
  | LRANGE key start stop => (Items (slice start stop (stored now d key)), d)
  | RPUSH key values =>
      let l := stored now d key ++ values in
      (Count (length l), write_key now key l d)
  | LTRIM key start stop =>
      (Flag true, write_key now key (slice start stop (stored now d key)) d)
  | EXPIRE key seconds =>
      match lookup_key now d key with
      | None => (Flag false, d)
      | Some _ =>
          if Qle_bool seconds 0 then (Flag true, remove_key key d)
          else (Flag true,
                Db (lists d) (<[key := (now + seconds)%Q]> (expires d)))
      end
  end.

Fixpoint run_commands (now : Q) (cs : list command) (d : db) : list reply * db :=
  match cs with
  | [] => ([], d)
  | c :: rest =>
      let '(r, d1) := run_command now c d in
      let '(rs, d2) := run_commands now rest d1 in
      (r :: rs, d2)
  end.

End Redis.
Import Redis.

(** ** The world the handlers run in *)

Inductive exn : Type :=
| ConnectionError     (* the Redis round trip failed *)
| ValueError          (* float(...) or tuple unpacking of a bad string *)
| TypeError           (* a reply of an unexpected shape *)
| TimeoutError        (* the HTTP request ran out of time *)
| ClientError         (* any other aiohttp failure *)
| ContentTypeError    (* response.json() on a body that is not JSON *)
| AttributeError      (* a method called on a value that does not have it *)
| ModelError.         (* the Together client raised *)

Inductive outcome (A : Type) : Type :=
| Ok (a : A)
| Raise (e : exn).
Arguments Ok {A} a.
Arguments Raise {A} e.

(* What happens to one round trip to Redis: it goes through, or the server
   runs the first [applied] commands of the batch and the call raises. *)
Inductive fault : Type :=
| Healthy
| Broken (applied : nat).

Record world : Type := World {
  clock : Q;                                (* time.time() *)
  redis : Redis.db;                         (* the global [redis] handle *)
  faults : list fault;                      (* fate of the coming round trips *)
  memory_cache : gmap string (string * Q);  (* SimpleMemoryCache: value, deadline *)
  http_log : list string;                   (* URLs requested from CoinGecko *)
  error_log : list (string * exn)           (* logging.error records *)
}.

Definition set_clock (t : Q) (w : world) : world :=
  World t (redis w) (faults w) (memory_cache w) (http_log w) (error_log w).

Definition set_redis (d : Redis.db) (w : world) : world :=
  World (clock w) d (faults w) (memory_cache w) (http_log w) (error_log w).

Definition set_faults (fs : list fault) (w : world) : world :=
  World (clock w) (redis w) fs (memory_cache w) (http_log w) (error_log w).

Definition set_memory_cache (c : gmap string (string * Q)) (w : world) : world :=
  World (clock w) (redis w) (faults w) c (http_log w) (error_log w).

Definition set_http_log (l : list string) (w : world) : world :=
  World (clock w) (redis w) (faults w) (memory_cache w) l (error_log w).

Definition set_error_log (l : list (string * exn)) (w : world) : world :=
  World (clock w) (redis w) (faults w) (memory_cache w) (http_log w) l.

(* A fresh process at time 0: empty Redis, empty cache, reliable network. *)
Definition boot : world := World 0%Q Redis.empty [] ∅ [] [].

(** ** Coroutines: state passing with exceptions *)

Definition task (A : Type) : Type := world -> outcome A * world.

Definition ret {A} (a : A) : task A := fun w => (Ok a, w).

Definition raise {A} (e : exn) : task A := fun w => (Raise e, w).

Definition bind {A B} (m : task A) (k : A -> task B) : task B :=
  fun w =>
    match m w with
    | (Ok a, w1) => k a w1
    | (Raise e, w1) => (Raise e, w1)
    end.

Definition lift {A} (o : outcome A) : task A := fun w => (o, w).

(* try: body except Exception as e: handler e *)
Definition try_except {A} (body : task A) (handler : exn -> task A) : task A :=
  fun w =>
    match body w with
    | (Raise e, w1) => handler e w1
    | done => done
    end.

Notation "'await' x ':=' m 'in' k" := (bind m (fun x => k))
  (at level 10, x binder, m at level 100, k at level 200).

Definition time_time : task Q := fun w => (Ok (clock w), w).

Definition logging_error (what : string) (e : exn) : task unit :=
  fun w => (Ok tt, set_error_log (error_log w ++ [(what, e)]) w).

(* One round trip: a pipeline's execute(), or a single command. *)
Definition execute (cmds : list command) : task (list reply) :=
  fun w =>
    match faults w with
    | Broken applied :: rest =>
        let '(_, d) := run_commands (clock w) (take applied cmds) (redis w) in
        (Raise ConnectionError, set_faults rest (set_redis d w))
    | Healthy :: rest =>
        let '(rs, d) := run_commands (clock w) cmds (redis w) in
        (Ok rs, set_faults rest (set_redis d w))
    | [] =>
        let '(rs, d) := run_commands (clock w) cmds (redis w) in
        (Ok rs, set_redis d w)
    end.

(* replies[0] of a round trip whose first command is LRANGE *)
Definition first_items (replies : list reply) : outcome (list rval) :=
  match replies with
  | Items l :: _ => Ok l
  | _ => Raise TypeError
  end.

(** ** Rate limiting *)

Definition REQUEST_LIMIT : nat := 5.
Definition TIME_FRAME : Q := 60%Q.

Definition float (v : rval) : outcome Q :=
  match v with
  | RNum t => Ok t
  | RText _ => Raise ValueError
  end.

(* [float(t) for t in items if current_time - float(t) < TIME_FRAME] *)
Fixpoint recent (current_time : Q) (items : list rval) : outcome (list Q) :=
  match items with
  | [] => Ok []
  | v :: rest =>
      match float v with
      | Raise e => Raise e
      | Ok t =>
          match recent current_time rest with
          | Raise e => Raise e
          | Ok ts =>
              Ok (if Qltb (current_time - t)%Q TIME_FRAME then t :: ts else ts)
          end
      end
  end.

Definition rate_limit_key (user_id : string) : string := "rate_limit:" +:+ user_id.

Definition rate_limited (user_id : string) : task bool :=
  await current_time := time_time in
  let key := rate_limit_key user_id in
  try_except
    (await replies := execute [LRANGE key 0 (-1)] in
     await items := lift (first_items replies) in
     await requests := lift (recent current_time items) in
     if (REQUEST_LIMIT <=? length requests)%nat then ret false
     else
       await _ := execute [RPUSH key [RNum current_time];
                     LTRIM key (- Z.of_nat REQUEST_LIMIT) (-1);
                     EXPIRE key TIME_FRAME] in
       ret true)
    (fun e => await _ := logging_error "Rate limiting error" e in ret false).

(** ** Chat history *)

Definition history_key (user_id : string) : string := "history:" +:+ user_id.

Definition update_chat_history (user_id user_message assistant_response : string)
  : task unit :=
  let key := history_key user_id in
  await _ := execute [RPUSH key [RText ("User: " +:+ user_message);
                           RText ("AI: " +:+ assistant_response)]] in
  await _ := execute [LTRIM key (-10) (-1)] in
  ret tt.

Definition get_chat_history (user_id : string) : task (list rval) :=
  await replies := execute [LRANGE (history_key user_id) 0 (-1)] in
  await items := lift (first_items replies) in
  ret (match items with [] => [] | _ => items end).

(** ** The aiocache decorator over SimpleMemoryCache *)

(* SimpleMemoryCache keeps a value until a timer deletes it [ttl] seconds
   after it was set; an entry whose deadline has been reached reads as
   absent.  The decorator's key is built from the positional arguments of
   the call, here the one string [crypto_name], taken as it is. *)
Definition cache_get (key : string) : task (option string) :=
  fun w =>
    match memory_cache w !! key with
    | Some (value, deadline) =>
        if Qltb (clock w) deadline then (Ok (Some value), w) else (Ok None, w)
    | None => (Ok None, w)
    end.

Definition cache_set (key value : string) (ttl : Q) : task unit :=
  fun w =>
    (Ok tt, set_memory_cache (<[key := (value, (clock w + ttl)%Q)]> (memory_cache w)) w).

(* @aiocache.cached(ttl=..., cache=SimpleMemoryCache): a stored value is
   returned without calling [f]; otherwise [f] is called and whatever it
   returns is stored under the key with a fresh deadline. *)
Definition cached (ttl : Q) (f : string -> task string) (arg : string) : task string :=
  await value := cache_get arg in
  match value with
  | Some v => ret v
  | None =>
      await result := f arg in
      await _ := cache_set arg result ttl in
      ret result
  end.

(** ** Messages of a chat completion request *)

Inductive role : Type := System | User | Assistant.

Record message : Type := Message { msg_role : role; msg_content : string }.

(* role, content = message.split(": ", 1) *)
Definition split_entry (entry : rval) : outcome (string * string) :=
  match entry with
  | RNum _ => Raise ValueError
  | RText s =>
      match PyStr.split_once ": " s with
      | Some rc => Ok rc
      | None => Raise ValueError
      end
  end.

Fixpoint history_messages (history : list rval) : outcome (list message) :=
  match history with
  | [] => Ok []
  | entry :: rest =>
      match split_entry entry with
      | Raise e => Raise e
      | Ok (r, c) =>
          match history_messages rest with
          | Raise e => Raise e
          | Ok ms =>
              Ok (Message (if String.eqb r "User" then User else Assistant) c :: ms)
          end
      end
  end.

(** ** The HTTP surface *)

Inductive http_result : Type :=
| HttpFailure (e : exn)
| HttpResponse (status : Z) (json : option (gmap string Q)).
    (* the body, when it is JSON: coin id to its "usd" quote *)

(* A JSON value as request.get_json() decodes it *)
Inductive json_value : Type :=
| JNull
| JBool (b : bool)
| JNum (n : Q)
| JStr (s : string)
| JCompound.          (* an array or an object *)

(* The decoded body: each key may be missing.  [user_id] and [text] are
   taken as strings; [action] is any JSON value, since the route calls a
   string method on it. *)
Record request_json : Type := RequestJson {
  user_id : option string;
  action : option json_value;
  text : option string
}.

(* data.get("action", "").lower(): only a string has the method *)
Definition action_lower (data : request_json) : outcome string :=
  match default (JStr "") (action data) with
  | JStr s => Ok (PyStr.lower s)
  | _ => Raise AttributeError
  end.

Record http_reply : Type := HttpReply { response : string; status_code : Z }.

Section Handlers.

(* CoinGecko at a given time and URL *)
Variable http_get : Q -> string -> http_result.
(* How Python prints a quote inside an f-string *)
Variable str_of_price : Q -> string.
(* client.chat.completions.create(...).choices[0].message.content *)
Variable chat_completion : list message -> outcome string.

Definition session_get (url : string) : task (Z * option (gmap string Q)) :=
  fun w =>
    let w1 := set_http_log (http_log w ++ [url]) w in
    match http_get (clock w) url with
    | HttpFailure e => (Raise e, w1)
    | HttpResponse status json => (Ok (status, json), w1)
    end.

Definition response_json (json : option (gmap string Q)) : task (gmap string Q) :=
  match json with
  | Some data => ret data
  | None => raise ContentTypeError
  end.

Definition price_url (crypto_name : string) : string :=
  "https://api.coingecko.com/api/v3/simple/price?ids=" +:+ PyStr.lower crypto_name
    +:+ "&vs_currencies=usd".

(* The body of fetch_crypto_price, under the decorator *)
Definition fetch_crypto_price_wrapped (crypto_name : string) : task string :=
  let url := price_url crypto_name in
  try_except
    (await resp := session_get url in
     let '(status, json) := resp in
     if negb (status =? 200)%Z
     then ret ("Failed to fetch " +:+ crypto_name +:+ " price.")
     else
       await data := response_json json in
       match data !! PyStr.lower crypto_name with
       | Some price =>
           if Qeq_bool price 0
           then ret ("Price for " +:+ crypto_name +:+ " not found.")
           else ret ("The current price of " +:+ PyStr.capitalize crypto_name
                       +:+ " is $" +:+ str_of_price price)
       | None => ret ("Price for " +:+ crypto_name +:+ " not found.")
       end)
    (fun e =>
       await _ := logging_error ("Error fetching " +:+ crypto_name +:+ " price") e in
       ret "Error fetching price.").

Definition fetch_crypto_price : string -> task string :=
  cached 30%Q fetch_crypto_price_wrapped.

(** ** English-only answers with conversation context *)

Definition FALLBACK : string := "I encountered an issue. Please try again.".

Definition enforce_english_response (user user_input : string) : task string :=
  await history := get_chat_history user in
  await turns := lift (history_messages history) in
  let messages :=
    [Message System "Respond in English and retain conversation context."]
      ++ turns ++ [Message User user_input] in
  try_except
    (await assistant_response := lift (chat_completion messages) in
     await _ := update_chat_history user user_input assistant_response in
     ret assistant_response)
    (fun e => await _ := logging_error "AI response error" e in ret FALLBACK).

(** ** The /agent route *)

Definition ai_agent (data : request_json) : task http_reply :=
  let user := user_id data in
  await act := lift (action_lower data) in
  let user_message := default "" (text data) in
  match user with
  | None | Some EmptyString => ret (HttpReply "Missing user_id." 400)
  | Some uid =>
      await allowed := rate_limited uid in
      if negb allowed then ret (HttpReply "Rate limit exceeded." 429)
      else if PyStr.contains "price" act then
        let crypto_name := PyStr.strip (PyStr.replace "price of" "" act) in
        await r := fetch_crypto_price crypto_name in
        ret (HttpReply r 200)
      else if String.eqb act "translate" then
        await r := enforce_english_response uid user_message in
        ret (HttpReply r 200)
      else
        await r := enforce_english_response uid user_message in
        ret (HttpReply r 200)
  end.

End Handlers.

(** ** Drivers: sequences of calls with a controlled clock *)

(* One rate_limited call per time stamp, for one user. *)
Fixpoint limiter_calls (user : string) (times : list Q) (w : world)
  : list (outcome bool) * world :=
  match times with
  | [] => ([], w)
  | t :: rest =>
      let '(o, w1) := rate_limited user (set_clock t w) in
      let '(os, w2) := limiter_calls user rest w1 in
      (o :: os, w2)
  end.

(* The two list entries one exchange leaves in the log *)
Definition exchange_entries (x : string * string) : list rval :=
  [RText ("User: " +:+ x.1); RText ("AI: " +:+ x.2)].

(* update_chat_history once per exchange, in order *)
Fixpoint append_exchanges (user : string) (xs : list (string * string)) (w : world)
  : world :=
  match xs with
  | [] => w
  | x :: rest => append_exchanges user rest (update_chat_history user x.1 x.2 w).2
  end.

(* The last [n] elements of a list *)
Definition lastn {A} (n : nat) (l : list A) : list A := drop (length l - n) l.

(* The time stamp is inside the trailing window *)
Definition fresh (now t : Q) : bool := Qltb (now - t)%Q TIME_FRAME.

(** ** Frames: what a coroutine leaves alone *)

(* The part of the world that only the price lookup touches *)
Definition same_frame (w w' : world) : Prop :=
  clock w' = clock w /\ memory_cache w' = memory_cache w /\ http_log w' = http_log w.

Definition keeps_frame {A} (m : task A) : Prop := forall w, same_frame w (m w).2.

Definition never_raises {A} (m : task A) : Prop := forall w, exists a, (m w).1 = Ok a.

(** ** Outcomes of a price lookup *)

(* The texts the lookup returns when it did not get a price *)
Definition failure_text (crypto_name v : string) : Prop :=
  v = "Failed to fetch " +:+ crypto_name +:+ " price."
  \/ v = "Price for " +:+ crypto_name +:+ " not found."
  \/ v = "Error fetching price.".

(* The request raises, the status is not 200, the body is not JSON, or it
   holds no (non-zero) quote for the coin. *)
Definition lookup_fails (r : http_result) (crypto_name : string) : Prop :=
  match r with
  | HttpFailure _ => True
  | HttpResponse status json =>
      status <> 200%Z
      \/ match json with
         | None => True
         | Some data =>
             match data !! PyStr.lower crypto_name with
             | None => True
             | Some price => Qeq_bool price 0 = true
             end
         end
  end.


(** ** Worlds, collaborators and requests of the examples *)

(* Five accepted calls at time 0, seen again at time 10. *)
Definition five_calls_then_ten : world :=
  set_clock 10%Q (limiter_calls "alice" [0; 0; 0; 0; 0]%Q boot).2.

Definition eleven_exchanges : list (string * string) :=
  [("q1", "a1"); ("q2", "a2"); ("q3", "a3"); ("q4", "a4"); ("q5", "a5");
   ("q6", "a6"); ("q7", "a7"); ("q8", "a8"); ("q9", "a9"); ("q10", "a10");
   ("q11", "a11")].

(* Collaborators for the examples *)
Definition coingecko_up : Q -> string -> http_result :=
  fun _ _ => HttpResponse 200 (Some {[ "btc" := 50000%Q ]}).
Definition coingecko_down : Q -> string -> http_result :=
  fun _ _ => HttpResponse 500 None.
Definition show_price : Q -> string := fun _ => "50000".
Definition model_down : list message -> outcome string := fun _ => Raise ModelError.
Definition model_echo : list message -> outcome string := fun _ => Ok "ok".

Definition priceless_request : request_json :=
  RequestJson (Some "alice") (Some (JStr "priceless")) None.

Definition lower_request : request_json :=
  RequestJson (Some "alice") (Some (JStr "price of btc")) None.
Definition upper_request : request_json :=
  RequestJson (Some "bob") (Some (JStr "Price Of BTC")) None.


(* Whatever the time of reading, the user's window holds time stamps, at
   most REQUEST_LIMIT of them. *)
Definition window_bounded (user : string) (w : world) : Prop :=
  forall t, exists ts,
    stored t (redis w) (rate_limit_key user) = map RNum ts
    /\ (length ts <= REQUEST_LIMIT)%nat.

(* A process whose first round trip to Redis fails *)
Definition offline : world := set_faults [Broken 0] boot.

Definition chat_request : request_json :=
  RequestJson (Some "alice") (Some (JStr "translate")) (Some "bonjour").

Definition bitcoin_request : request_json :=
  RequestJson (Some "alice") (Some (JStr "Price Of  Bitcoin ")) None.

(** ** What "cut out" and "stripped" mean *)

(* [cut_out old s s']: [s'] is [s] with every occurrence of [old], found
   scanning from the left, cut out and every other character kept. *)
Inductive cut_out (old : string) : string -> string -> Prop :=
| cut_end : cut_out old EmptyString EmptyString
| cut_hit (s s' : string) :
    cut_out old s s' -> cut_out old (old +:+ s) s'
| cut_keep (c : ascii) (s s' : string) :
    String.prefix old (String c s) = false ->
    cut_out old s s' -> cut_out old (String c s) (String c s').

Fixpoint all_space (s : string) : bool :=
  match s with
  | EmptyString => true
  | String c r => PyStr.isspace c && all_space r
  end.

Definition first_char (s : string) : option ascii :=
  match s with
  | EmptyString => None
  | String c _ => Some c
  end.

Fixpoint last_char (s : string) : option ascii :=
  match s with
  | EmptyString => None
  | String c EmptyString => Some c
  | String _ r => last_char r
  end.

(* White space only *)
Definition blank (s : string) : Prop := all_space s = true.

(* No white space at either end *)
Definition trimmed (s : string) : Prop :=
  (forall c, first_char s = Some c -> PyStr.isspace c = false)
  /\ (forall c, last_char s = Some c -> PyStr.isspace c = false).

(* TAB SPACE "Price of BTC" SPACE LF *)
Definition tab_price_of_btc : string :=
  String (ascii_of_nat 9) (" Price of BTC " +:+ String (ascii_of_nat 10) EmptyString).

Definition tab_request : request_json :=
  RequestJson (Some "alice") (Some (JStr tab_price_of_btc)) None.

(* A body with no user id and a null action *)
Definition null_action_request : request_json := RequestJson None (Some JNull) None.

(** ** Keys a command touches; relations a coroutine preserves *)

Definition command_key (c : command) : string :=
  match c with
  | LRANGE key _ _ | RPUSH key _ | LTRIM key _ _ | EXPIRE key _ => key
  end.

(* The list and the deadline under one Redis key are the same in both worlds. *)
Definition untouched (key : string) (w w' : world) : Prop :=
  lists (redis w') !! key = lists (redis w) !! key
  /\ expires (redis w') !! key = expires (redis w) !! key.

(* Every run of the coroutine relates the world before to the world after. *)
Definition preserves {A} (R : world -> world -> Prop) (m : task A) : Prop :=
  forall w, R w (m w).2.

(* The two turns of the model's context that one exchange stands for *)
Definition exchange_turns (x : string * string) : list message :=
  [Message User x.1; Message Assistant x.2].

(** ** The limiter against a sliding-window log *)

(* Reference limiter: it remembers the time of every accepted call, and
   accepts a call when fewer than REQUEST_LIMIT of them are inside the
   trailing window. *)
Fixpoint sliding_window_log (accepted : list Q) (times : list Q) : list bool :=
  match times with
  | [] => []
  | t :: rest =>
      let ok := (length (List.filter (fresh t) accepted) <? REQUEST_LIMIT)%nat in
      ok :: sliding_window_log (if ok then accepted ++ [t] else accepted) rest
  end.

(* The time stamp has left the window by time [t]. *)
Definition stale (t a : Q) : Prop := (a + TIME_FRAME <= t)%Q.

(* How the stored window relates to the log of accepted calls, after a call
   at time [t0]: Redis keeps a suffix [kept] of the log; what it dropped is
   stale unless [kept] is full. *)
Definition window_tracks (user : string) (w : world) (log : list Q) (t0 : Q) : Prop :=
  faults w = []
  /\ Forall (fun a => (a <= t0)%Q) log
  /\ StronglySorted Qle log
  /\ ((lists (redis w) !! rate_limit_key user = None /\ log = [])
      \/ exists older kept deadline,
           log = older ++ kept
           /\ lists (redis w) !! rate_limit_key user = Some (map RNum kept)
           /\ expires (redis w) !! rate_limit_key user = Some deadline
           /\ Forall (stale deadline) log
           /\ (length kept <= REQUEST_LIMIT)%nat
           /\ (length kept = REQUEST_LIMIT \/ Forall (stale t0) older)).

(** * Properties *)

(** ** Lists and Redis ranges *)

Ltac split_comparisons :=
  repeat match goal with
  | |- context [(?a <? ?b)%Z] => destruct (Z.ltb_spec a b)
  | |- context [(?a <=? ?b)%Z] => destruct (Z.leb_spec a b)
  end.

Lemma range_bounds_all (len : Z) :
  (0 < len)%Z -> range_bounds len 0 (-1) = Some (0, len - 1)%Z.
Proof.
  intros H. unfold range_bounds.
  split_comparisons; simpl; try lia; f_equal; f_equal; lia.
Qed.

Lemma range_bounds_last (len n : Z) :
  (0 < len)%Z -> (0 < n)%Z ->
  range_bounds len (- n) (-1) = Some (Z.max 0 (len - n), len - 1)%Z.
Proof.
  intros H Hn. unfold range_bounds.
  assert ((- n <? 0)%Z = true) as -> by lia.
  split_comparisons; simpl; try lia; f_equal; f_equal; lia.
Qed.

Lemma slice_nil {A} (start stop : Z) : slice start stop (@nil A) = [].
Proof. unfold slice. destruct (range_bounds _ _ _) as [[s e]|]; [|reflexivity]. by rewrite drop_nil, take_nil. Qed.

Lemma slice_all {A} (l : list A) : slice 0 (-1) l = l.
Proof.
  destruct l as [|a l]; [apply slice_nil|].
  unfold slice. rewrite range_bounds_all by (simpl length; lia).
  simpl drop. apply take_ge. simpl length. lia.
Qed.

Lemma slice_last {A} (n : nat) (l : list A) :
  (0 < n)%nat -> slice (- Z.of_nat n) (-1) l = lastn n l.
Proof.
  intros Hn. destruct l as [|a l]; [by rewrite slice_nil|].
  unfold slice, lastn. rewrite range_bounds_last by (simpl length; lia).
  set (len := length (a :: l)).
  replace (Z.to_nat (Z.max 0 (Z.of_nat len - Z.of_nat n))) with (len - n)%nat by lia.
  apply take_ge. rewrite length_drop. fold len. lia.
Qed.

Lemma lastn_length {A} (n : nat) (l : list A) : (length (lastn n l) <= n)%nat.
Proof. unfold lastn. rewrite length_drop. lia. Qed.

Lemma lastn_nonempty {A} (n : nat) (l : list A) :
  (0 < n)%nat -> l <> [] -> lastn n l <> [].
Proof.
  intros Hn Hl E. apply (f_equal length) in E. unfold lastn in E.
  rewrite length_drop in E. simpl in E.
  destruct l; [congruence | simpl in E; lia].
Qed.

Lemma lastn_app_lastn {A} (n : nat) (l1 l2 : list A) :
  lastn n (lastn n l1 ++ l2) = lastn n (l1 ++ l2).
Proof.
  unfold lastn. rewrite !length_app, length_drop.
  destruct (decide (length l1 <= n)%nat) as [Hle|Hgt].
  - replace (length l1 - n)%nat with 0%nat by lia. simpl.
    f_equal. lia.
  - rewrite <- (drop_app_le l1 l2 (length l1 - n)) by lia.
    rewrite drop_drop. f_equal. lia.
Qed.

Lemma lastn_map {A B} (f : A -> B) (n : nat) (l : list A) :
  lastn n (map f l) = map f (lastn n l).
Proof. unfold lastn. rewrite length_map. symmetry. apply (fmap_drop f). Qed.

Lemma lastn_all {A} (n : nat) (l : list A) :
  (length l <= n)%nat -> lastn n l = l.
Proof. intros H. unfold lastn. replace (length l - n)%nat with 0%nat by lia. reflexivity. Qed.

Lemma lastn_app_r {A} (n : nat) (l1 l2 : list A) :
  (n <= length l2)%nat -> lastn n (l1 ++ l2) = lastn n l2.
Proof.
  intros H. unfold lastn. rewrite length_app.
  replace (length l1 + length l2 - n)%nat with (length l1 + (length l2 - n))%nat by lia.
  apply drop_app_add.
Qed.

(** ** Rationals *)

Lemma Qle_bool_false (x y : Q) : Qle_bool x y = false <-> (y < x)%Q.
Proof.
  split; intros H.
  - apply Qnot_le_lt. intros Hle. apply Qle_bool_iff in Hle. congruence.
  - destruct (Qle_bool x y) eqn:E; [|reflexivity].
    apply Qle_bool_iff in E. exfalso. apply (Qlt_not_le _ _ H E).
Qed.

Lemma Qltb_true (x y : Q) : Qltb x y = true <-> (x < y)%Q.
Proof. unfold Qltb. rewrite negb_true_iff. apply Qle_bool_false. Qed.

Lemma Qltb_false (x y : Q) : Qltb x y = false <-> (y <= x)%Q.
Proof. unfold Qltb. rewrite negb_false_iff. apply Qle_bool_iff. Qed.

Lemma deadline_ahead (now : Q) : Qle_bool (now + TIME_FRAME) now = false.
Proof. apply Qle_bool_false. unfold TIME_FRAME. lra. Qed.

(** ** Redis keys *)

Lemma lookup_write_key (now : Q) (key : string) (l : list rval) (d : db) :
  l <> [] -> lookup_key now (write_key now key l d) key = Some l.
Proof.
  intros Hl. destruct l as [|a l]; [congruence|].
  unfold write_key, lookup_key at 1, expired. simpl.
  unfold lookup_key, expired.
  destruct (expires d !! key) as [dl|] eqn:E.
  - destruct (Qle_bool dl now) eqn:Q.
    + rewrite lookup_delete_eq. apply lookup_insert_eq.
    + destruct (lists d !! key).
      * rewrite E, Q. apply lookup_insert_eq.
      * rewrite lookup_delete_eq. apply lookup_insert_eq.
  - destruct (lists d !! key).
    + rewrite E. apply lookup_insert_eq.
    + rewrite lookup_delete_eq. apply lookup_insert_eq.
Qed.

Lemma lists_write_key (now : Q) (key : string) (l : list rval) (d : db) :
  l <> [] -> lists (write_key now key l d) !! key = Some l.
Proof.
  intros Hl. destruct l as [|a l]; [congruence|].
  simpl. apply lookup_insert_eq.
Qed.

Lemma stored_write_key (now : Q) (key : string) (l : list rval) (d : db) :
  stored now (write_key now key l d) key = l.
Proof.
  destruct l as [|a l].
  - unfold stored, lookup_key, expired, write_key, remove_key. simpl.
    rewrite !lookup_delete_eq. reflexivity.
  - unfold stored. rewrite lookup_write_key by congruence. reflexivity.
Qed.

Lemma stored_at (t : Q) (d : db) (key : string) (l : list rval) (deadline : Q) :
  lists d !! key = Some l -> expires d !! key = Some deadline ->
  stored t d key = if Qle_bool deadline t then [] else l.
Proof.
  intros Hl He. unfold stored, lookup_key, expired. rewrite He, Hl.
  destruct (Qle_bool deadline t); reflexivity.
Qed.

Lemma stored_absent (t : Q) (d : db) (key : string) :
  lookup_key t d key = None -> stored t d key = [].
Proof. intros H. unfold stored. rewrite H. reflexivity. Qed.

(* What the second round trip of an accepted call leaves under the key *)
Lemma run_accept_commands (now : Q) (key : string) (d : db) :
  exists rs d',
    run_commands now [RPUSH key [RNum now];
                      LTRIM key (- Z.of_nat REQUEST_LIMIT) (-1);
                      EXPIRE key TIME_FRAME] d = (rs, d')
    /\ lists d' !! key = Some (lastn REQUEST_LIMIT (stored now d key ++ [RNum now]))
    /\ expires d' !! key = Some (now + TIME_FRAME)%Q.
Proof.
  set (l1 := stored now d key ++ [RNum now]).
  set (l2 := lastn REQUEST_LIMIT l1).
  assert (Hl1 : l1 <> []) by (subst l1; destruct (stored now d key); discriminate).
  assert (Hl2 : l2 <> []) by (apply lastn_nonempty; [unfold REQUEST_LIMIT; lia | exact Hl1]).
  unfold run_commands, run_command. fold l1.
  rewrite stored_write_key.
  rewrite (slice_last REQUEST_LIMIT) by (unfold REQUEST_LIMIT; lia). fold l2.
  rewrite lookup_write_key by exact Hl2.
  assert (Qle_bool TIME_FRAME 0 = false) as -> by reflexivity.
  eexists _, _. split; [reflexivity|]. simpl. split.
  - apply lists_write_key. exact Hl2.
  - apply lookup_insert_eq.
Qed.

(** ** The rate limiter on a working back end *)

Lemma recent_timestamps (now : Q) (times : list Q) :
  recent now (map RNum times) = Ok (List.filter (fresh now) times).
Proof.
  induction times as [|t times IH]; [reflexivity|].
  simpl. rewrite IH. unfold fresh. destruct (Qltb (now - t) TIME_FRAME); reflexivity.
Qed.

Lemma set_redis_same (w : world) : set_redis (redis w) w = w.
Proof. destruct w; reflexivity. Qed.

Lemma rate_limited_reject (user : string) (w : world) (times : list Q) :
  faults w = [] ->
  stored (clock w) (redis w) (rate_limit_key user) = map RNum times ->
  (REQUEST_LIMIT <= length (List.filter (fresh (clock w)) times))%nat ->
  rate_limited user w = (Ok false, w).
Proof.
  intros Hf Hs Hn.
  unfold rate_limited, bind, time_time, try_except, execute, lift.
  rewrite Hf. simpl run_commands. rewrite slice_all, Hs. simpl first_items.
  cbv iota beta. rewrite recent_timestamps.
  apply Nat.leb_le in Hn. rewrite Hn. unfold ret. rewrite set_redis_same. reflexivity.
Qed.

Lemma rate_limited_accept (user : string) (w : world) (times : list Q) :
  faults w = [] ->
  stored (clock w) (redis w) (rate_limit_key user) = map RNum times ->
  (length (List.filter (fresh (clock w)) times) < REQUEST_LIMIT)%nat ->
  exists d',
    rate_limited user w = (Ok true, set_redis d' w)
    /\ lists d' !! rate_limit_key user
       = Some (map RNum (lastn REQUEST_LIMIT (times ++ [clock w])))
    /\ expires d' !! rate_limit_key user = Some (clock w + TIME_FRAME)%Q.
Proof.
  intros Hf Hs Hn.
  destruct (run_accept_commands (clock w) (rate_limit_key user) (redis w))
    as (rs & d' & Hrun & Hl & He).
  exists d'. split; [|split].
  - unfold rate_limited, bind, time_time, try_except, execute, lift.
    rewrite Hf. simpl run_commands at 1. rewrite slice_all, Hs. simpl first_items.
    cbv iota beta. rewrite recent_timestamps.
    apply Nat.leb_gt in Hn. rewrite Hn. simpl faults. rewrite Hf.
    simpl clock. simpl redis. rewrite set_redis_same, Hrun. unfold ret.
    destruct w; reflexivity.
  - rewrite Hl, Hs, <- lastn_map, map_app. reflexivity.
  - exact He.
Qed.

Lemma fresh_spec (now t : Q) : fresh now t = true <-> (now - t < TIME_FRAME)%Q.
Proof. apply Qltb_true. Qed.

(* An accepted call, seen from any later time [t']. *)
Lemma accept_step (user : string) (w : world) (t : Q) (times : list Q) :
  faults w = [] ->
  stored t (redis w) (rate_limit_key user) = map RNum times ->
  (length (List.filter (fresh t) times) < REQUEST_LIMIT)%nat ->
  exists w',
    rate_limited user (set_clock t w) = (Ok true, w')
    /\ faults w' = []
    /\ forall t', stored t' (redis w') (rate_limit_key user)
         = if Qle_bool (t + TIME_FRAME) t' then []
           else map RNum (lastn REQUEST_LIMIT (times ++ [t])).
Proof.
  intros Hf Hs Hn.
  destruct (rate_limited_accept user (set_clock t w) times Hf Hs Hn)
    as (d' & Hr & Hl & He).
  exists (set_redis d' (set_clock t w)). split; [exact Hr|]. split; [exact Hf|].
  intros t'. simpl redis. apply stored_at; assumption.
Qed.

Lemma reject_step (user : string) (w : world) (t : Q) (times : list Q) :
  faults w = [] ->
  stored t (redis w) (rate_limit_key user) = map RNum times ->
  (REQUEST_LIMIT <= length (List.filter (fresh t) times))%nat ->
  rate_limited user (set_clock t w) = (Ok false, set_clock t w).
Proof. intros Hf Hs Hn. exact (rate_limited_reject user (set_clock t w) times Hf Hs Hn). Qed.

(** X14. On a working back end the bound on the stored window is an
    invariant of any run of calls, at whatever times they are made: if the
    user's window holds at most REQUEST_LIMIT time stamps before, it does
    after every call of the run. *)
Lemma limiter_calls_bounded (user : string) (times : list Q) (w : world) :
  faults w = [] -> window_bounded user w ->
  faults (limiter_calls user times w).2 = []
  /\ window_bounded user (limiter_calls user times w).2.
Proof.
  revert w. induction times as [|t times IH]; intros w Hf Hb; [split; assumption|].
  simpl limiter_calls.
  destruct (Hb t) as (ts & Hs & Hlen).
  assert (Hnext : exists o w1,
            rate_limited user (set_clock t w) = (o, w1)
            /\ faults w1 = [] /\ window_bounded user w1).
  { destruct (Nat.le_gt_cases REQUEST_LIMIT (length (List.filter (fresh t) ts)))
      as [Hn|Hn].
    - rewrite (reject_step user w t ts Hf Hs Hn).
      eexists _, _. split; [reflexivity|]. split; [exact Hf | exact Hb].
    - destruct (accept_step user w t ts Hf Hs Hn) as (w1 & -> & Hf1 & Hs1).
      eexists _, _. split; [reflexivity|]. split; [exact Hf1|].
      intros t'. rewrite Hs1. destruct (Qle_bool _ _).
      + exists []. split; [reflexivity | simpl; lia].
      + eexists. split; [reflexivity | apply lastn_length]. }
  destruct Hnext as (o & w1 & -> & Hf1 & Hb1).
  destruct (IH w1 Hf1 Hb1) as [Hf2 Hb2].
  destruct (limiter_calls user times w1) as [os w2]. simpl in *. split; assumption.
Qed.

(** ** What a coroutine leaves alone *)

Lemma same_frame_refl (w : world) : same_frame w w.
Proof. repeat split. Qed.

Lemma same_frame_trans (w1 w2 w3 : world) :
  same_frame w1 w2 -> same_frame w2 w3 -> same_frame w1 w3.
Proof. unfold same_frame. intros (?&?&?) (?&?&?). repeat split; congruence. Qed.

Lemma keeps_ret {A} (a : A) : keeps_frame (ret a).
Proof. intros w. apply same_frame_refl. Qed.

Lemma keeps_lift {A} (o : outcome A) : keeps_frame (lift o).
Proof. intros w. apply same_frame_refl. Qed.

Lemma keeps_bind {A B} (m : task A) (k : A -> task B) :
  keeps_frame m -> (forall a, keeps_frame (k a)) -> keeps_frame (bind m k).
Proof.
  intros Hm Hk w. unfold bind. specialize (Hm w).
  destruct (m w) as [[a|e] w1]; simpl in *; [|exact Hm].
  eapply same_frame_trans; [exact Hm | apply Hk].
Qed.

Lemma keeps_try_except {A} (body : task A) (handler : exn -> task A) :
  keeps_frame body -> (forall e, keeps_frame (handler e)) ->
  keeps_frame (try_except body handler).
Proof.
  intros Hb Hh w. unfold try_except. specialize (Hb w).
  destruct (body w) as [[a|e] w1]; simpl in *; [exact Hb|].
  eapply same_frame_trans; [exact Hb | apply Hh].
Qed.

Lemma keeps_execute (cmds : list command) : keeps_frame (execute cmds).
Proof.
  intros w. unfold execute.
  destruct (faults w) as [|[|k] fs];
    destruct (run_commands _ _ _) as [rs d]; repeat split.
Qed.

Lemma keeps_logging_error (what : string) (e : exn) : keeps_frame (logging_error what e).
Proof. intros w. repeat split. Qed.

Lemma keeps_time_time : keeps_frame time_time.
Proof. intros w. apply same_frame_refl. Qed.

Lemma try_except_never_raises {A} (body : task A) (handler : exn -> task A) :
  (forall e, never_raises (handler e)) -> never_raises (try_except body handler).
Proof.
  intros Hh w. unfold try_except.
  destruct (body w) as [[a|e] w1]; [exists a; reflexivity | apply Hh].
Qed.

Create HintDb frame.
#[local] Hint Resolve keeps_ret keeps_lift keeps_execute keeps_logging_error
  keeps_time_time : frame.

Lemma rate_limited_keeps_frame (user : string) : keeps_frame (rate_limited user).
Proof.
  unfold rate_limited.
  apply keeps_bind; [auto with frame|]. intros now.
  apply keeps_try_except.
  - repeat (apply keeps_bind; [auto with frame|]; intros ?).
    destruct (_ <=? _)%nat; [auto with frame|].
    apply keeps_bind; auto with frame.
  - intros e. apply keeps_bind; auto with frame.
Qed.

Lemma rate_limited_never_raises (user : string) : never_raises (rate_limited user).
Proof.
  intros w. unfold rate_limited, bind at 1, time_time.
  apply try_except_never_raises. intros e w'. exists false. reflexivity.
Qed.

(* The limiter catches everything, and touches Redis and the error log only. *)
Lemma rate_limited_frame (user : string) (w : world) :
  exists b w', rate_limited user w = (Ok b, w') /\ same_frame w w'.
Proof.
  destruct (rate_limited_never_raises user w) as [b Hb].
  pose proof (rate_limited_keeps_frame user w) as Hk.
  destruct (rate_limited user w) as [o w']. simpl in *. subst o.
  exists b, w'. split; [reflexivity | exact Hk].
Qed.

(** ** The rate limiter on a failing back end *)

Lemma execute_broken (cmds : list command) (w : world) (k : nat) (fs : list fault) :
  faults w = Broken k :: fs -> (execute cmds w).1 = Raise ConnectionError.
Proof.
  intros Hf. unfold execute. rewrite Hf.
  destruct (run_commands _ _ _) as [rs d]. reflexivity.
Qed.

Lemma execute_healthy (cmds : list command) (w : world) (fs : list fault) :
  faults w = Healthy :: fs ->
  exists rs w', execute cmds w = (Ok rs, w') /\ faults w' = fs /\ clock w' = clock w.
Proof.
  intros Hf. unfold execute. rewrite Hf.
  destruct (run_commands _ _ _) as [rs d]. eexists _, _. repeat split.
Qed.

(** C5. A round trip to Redis that raises during the call (the call makes
    at most two: the read, then the write batch) makes [rate_limited] return
    [False]; whatever part of the batch the server had applied, the call
    never answers [True]. *)
Theorem rate_limited_fails_closed (user : string) (w : world) (i k : nat) :
  (i < 2)%nat -> faults w !! i = Some (Broken k) ->
  (rate_limited user w).1 = Ok false.
Proof.
  intros Hi Hk.
  unfold rate_limited, bind at 1, time_time.
  unfold try_except.
  destruct (faults w) as [|f0 fs] eqn:Hf; [destruct i; discriminate|].
  destruct f0 as [|k0].
  - (* the read goes through, the write batch is the broken round trip *)
    destruct i as [|[|i]]; [discriminate | | lia]. simpl in Hk.
    destruct fs as [|f1 fs]; [discriminate|]. injection Hk as ->.
    unfold bind at 1.
    destruct (execute_healthy [LRANGE (rate_limit_key user) 0 (-1)] w _ Hf)
      as (rs & w1 & -> & Hf1 & _).
    unfold bind at 1, lift at 1.
    destruct (first_items rs) as [items|e]; [|reflexivity].
    unfold bind at 1, lift at 1.
    destruct (recent (clock w) items) as [ts|e]; [|reflexivity].
    destruct (REQUEST_LIMIT <=? length ts)%nat; [reflexivity|].
    unfold bind.
    match goal with |- context [execute ?c w1] =>
      pose proof (execute_broken c w1 k fs Hf1) as Hb;
      destruct (execute c w1) as [o w2]
    end.
    simpl in Hb. subst o. reflexivity.
  - (* the read itself is the broken round trip *)
    unfold bind at 1.
    match goal with |- context [execute ?c w] =>
      pose proof (execute_broken c w k0 fs Hf) as Hb;
      destruct (execute c w) as [o w2]
    end.
    simpl in Hb. subst o. reflexivity.
Qed.

Lemma rate_limited_fails_closed_witness :
  (rate_limited "alice" (set_faults [Healthy; Broken 1] boot)).1 = Ok false.
Proof.
  apply (rate_limited_fails_closed "alice" (set_faults [Healthy; Broken 1] boot) 1 1).
  - lia.
  - reflexivity.
Defined.

(** C7. On a working back end, with the time stamps [times] stored for the
    user: when at least REQUEST_LIMIT of them satisfy
    [now - t < TIME_FRAME] the call returns [False] and changes nothing;
    otherwise it returns [True], the stored sequence becomes the last
    REQUEST_LIMIT entries of [times ++ [now]] and the key expires
    TIME_FRAME seconds after [now].  A stored sequence of at most
    REQUEST_LIMIT entries stays so, and only entries inside the window are
    counted. *)
Theorem rate_limited_window (user : string) (w : world) (times : list Q) :
  faults w = [] ->
  stored (clock w) (redis w) (rate_limit_key user) = map RNum times ->
  let now := clock w in
  let key := rate_limit_key user in
  let count := length (List.filter (fun t => Qltb (now - t)%Q TIME_FRAME) times) in
  let result := (rate_limited user w).1 in
  let w' := (rate_limited user w).2 in
  ((REQUEST_LIMIT <= count)%nat -> result = Ok false /\ w' = w)
  /\ ((count < REQUEST_LIMIT)%nat ->
      result = Ok true
      /\ stored now (redis w') key = map RNum (lastn REQUEST_LIMIT (times ++ [now]))
      /\ expires (redis w') !! key = Some (now + TIME_FRAME)%Q
      /\ (length (stored now (redis w') key) <= REQUEST_LIMIT)%nat)
  /\ ((length times <= REQUEST_LIMIT)%nat ->
      (length (stored now (redis w') key) <= REQUEST_LIMIT)%nat).
Proof.
  intros Hf Hs now key count result w'.
  assert (Haccept : (count < REQUEST_LIMIT)%nat ->
      result = Ok true
      /\ stored now (redis w') key = map RNum (lastn REQUEST_LIMIT (times ++ [now]))
      /\ expires (redis w') !! key = Some (now + TIME_FRAME)%Q
      /\ (length (stored now (redis w') key) <= REQUEST_LIMIT)%nat).
  { intros Hn.
    destruct (rate_limited_accept user w times Hf Hs Hn) as (d' & Hr & Hl & He).
    subst result w'. rewrite Hr. simpl.
    assert (Hst : stored now d' key = map RNum (lastn REQUEST_LIMIT (times ++ [now]))).
    { rewrite (stored_at now d' key _ _ Hl He). subst now.
      rewrite deadline_ahead. reflexivity. }
    repeat split; [exact Hst | exact He |].
    rewrite Hst, length_map. apply lastn_length. }
  assert (Hreject : (REQUEST_LIMIT <= count)%nat -> result = Ok false /\ w' = w).
  { intros Hn. subst result w'.
    rewrite (rate_limited_reject user w times Hf Hs Hn). split; reflexivity. }
  split; [exact Hreject|]. split; [exact Haccept|].
  intros Hlen.
  destruct (Nat.le_gt_cases REQUEST_LIMIT count) as [Hn|Hn].
  - destruct (Hreject Hn) as [_ ->]. subst now key. rewrite Hs, length_map. exact Hlen.
  - apply Haccept. exact Hn.
Qed.

Lemma rate_limited_window_witness :
  (rate_limited "alice" five_calls_then_ten).1 = Ok false
  /\ (rate_limited "alice" five_calls_then_ten).2 = five_calls_then_ten.
Proof.
  apply (proj1 (rate_limited_window "alice" five_calls_then_ten
                  [0; 0; 0; 0; 0]%Q eq_refl eq_refl)).
  vm_compute. lia.
Defined.

(** C1. With REQUEST_LIMIT = 5 and TIME_FRAME = 60: five calls at t = 0 are
    accepted, a sixth at t = 10 is rejected, a seventh at t = 61 is
    accepted; at t = 61 none of the entries recorded at t = 0 is inside the
    window. *)
Theorem seven_calls (user : string) (w : world) :
  faults w = [] ->
  lookup_key 0%Q (redis w) (rate_limit_key user) = None ->
  REQUEST_LIMIT = 5%nat /\ (TIME_FRAME == 60)%Q
  /\ (limiter_calls user [0; 0; 0; 0; 0; 10; 61]%Q w).1
     = [Ok true; Ok true; Ok true; Ok true; Ok true; Ok false; Ok true]
  /\ List.filter (fresh 61%Q) [0; 0; 0; 0; 0]%Q = [].
Proof.
  intros Hf Habs. split; [reflexivity|]. split; [reflexivity|]. split; [|reflexivity].
  pose proof (stored_absent _ _ _ Habs) as S0.
  unfold limiter_calls.
  destruct (accept_step user w 0%Q [] Hf S0) as (w1 & -> & F1 & S1);
    [vm_compute; lia|].
  destruct (accept_step user w1 0%Q [0%Q] F1) as (w2 & -> & F2 & S2);
    [rewrite S1; reflexivity | vm_compute; lia|].
  destruct (accept_step user w2 0%Q [0; 0]%Q F2) as (w3 & -> & F3 & S3);
    [rewrite S2; reflexivity | vm_compute; lia|].
  destruct (accept_step user w3 0%Q [0; 0; 0]%Q F3) as (w4 & -> & F4 & S4);
    [rewrite S3; reflexivity | vm_compute; lia|].
  destruct (accept_step user w4 0%Q [0; 0; 0; 0]%Q F4) as (w5 & -> & F5 & S5);
    [rewrite S4; reflexivity | vm_compute; lia|].
  rewrite (reject_step user w5 10%Q [0; 0; 0; 0; 0]%Q F5);
    [| rewrite S5; reflexivity | vm_compute; lia].
  destruct (accept_step user (set_clock 10%Q w5) 61%Q [] F5) as (w7 & -> & _);
    [simpl redis; rewrite S5; reflexivity | vm_compute; lia|].
  reflexivity.
Qed.

Lemma seven_calls_witness :
  (limiter_calls "alice" [0; 0; 0; 0; 0; 10; 61]%Q boot).1
  = [Ok true; Ok true; Ok true; Ok true; Ok true; Ok false; Ok true].
Proof.
  exact (proj1 (proj2 (proj2 (seven_calls "alice" boot eq_refl eq_refl)))).
Defined.

(** ** Chat history *)

Lemma execute_reliable (cmds : list command) (w : world) :
  faults w = [] ->
  execute cmds w
  = (Ok (run_commands (clock w) cmds (redis w)).1,
     set_redis (run_commands (clock w) cmds (redis w)).2 w).
Proof.
  intros Hf. unfold execute. rewrite Hf.
  destruct (run_commands _ _ _) as [rs d]. reflexivity.
Qed.

Lemma get_chat_history_reliable (user : string) (w : world) :
  faults w = [] ->
  get_chat_history user w
  = (Ok (stored (clock w) (redis w) (history_key user)), w).
Proof.
  intros Hf. unfold get_chat_history, bind, lift, ret.
  rewrite execute_reliable by exact Hf. simpl.
  rewrite slice_all, set_redis_same.
  destruct (stored _ _ _); reflexivity.
Qed.

(* A successful read returns the stored list and changes nothing in Redis. *)
Lemma get_chat_history_read (user : string) (w : world) (history : list rval) :
  (get_chat_history user w).1 = Ok history ->
  history = stored (clock w) (redis w) (history_key user)
  /\ redis (get_chat_history user w).2 = redis w
  /\ clock (get_chat_history user w).2 = clock w.
Proof.
  unfold get_chat_history, bind, lift, ret, execute.
  destruct (faults w) as [|[|k] fs]; simpl; rewrite ?slice_all.
  - destruct (stored _ _ _); intros [= <-]; repeat split.
  - destruct (stored _ _ _); intros [= <-]; repeat split.
  - destruct (run_commands _ _ _) as [rs d]. simpl. discriminate.
Qed.

Lemma update_chat_history_reliable (user m r : string) (w : world) :
  faults w = [] ->
  exists d',
    update_chat_history user m r w = (Ok tt, set_redis d' w)
    /\ stored (clock w) d' (history_key user)
       = lastn 10 (stored (clock w) (redis w) (history_key user)
                   ++ exchange_entries (m, r)).
Proof.
  intros Hf. unfold update_chat_history, bind, ret.
  rewrite execute_reliable by exact Hf.
  rewrite execute_reliable by exact Hf.
  simpl clock. simpl redis.
  eexists. split.
  - destruct w; reflexivity.
  - simpl. rewrite !stored_write_key. apply (slice_last 10). lia.
Qed.

Lemma append_exchanges_stored (user : string) (xs : list (string * string))
    (x : string * string) (w : world) :
  faults w = [] ->
  let w' := append_exchanges user (x :: xs) w in
  faults w' = [] /\ clock w' = clock w
  /\ stored (clock w) (redis w') (history_key user)
     = lastn 10 (stored (clock w) (redis w) (history_key user)
                 ++ flat_map exchange_entries (x :: xs)).
Proof.
  revert x w. induction xs as [|y xs IH]; intros [m r] w Hf.
  - simpl. destruct (update_chat_history_reliable user m r w Hf) as (d' & -> & Hs).
    simpl. split; [exact Hf|]. split; [reflexivity | exact Hs].
  - destruct (update_chat_history_reliable user m r w Hf) as (d' & Hu & Hs).
    specialize (IH y (set_redis d' w) Hf). simpl in IH.
    destruct IH as (Hf' & Hc & Hst).
    change (append_exchanges user ((m, r) :: y :: xs) w)
      with (append_exchanges user (y :: xs) (update_chat_history user m r w).2).
    rewrite Hu. simpl. split; [exact Hf'|]. split; [exact Hc|].
    rewrite Hst, Hs. rewrite lastn_app_lastn. rewrite <- app_assoc. reflexivity.
Qed.

(** C2, as the claim states it, fails: after 11 exchanges the history read
    back is not the last 20 of the 22 entries (it has 10 entries). *)
Lemma history_twenty_counterexample :
  (get_chat_history "alice" (append_exchanges "alice" eleven_exchanges boot)).1
  <> Ok (drop 2 (flat_map exchange_entries eleven_exchanges)).
Proof.
  intros H.
  apply (f_equal (fun o => match o with Ok l => length l | Raise _ => 0%nat end)) in H.
  vm_compute in H. discriminate H.
Qed.

(* A round trip that returned ran its whole batch. *)
Lemma execute_returned (cmds : list command) (w w1 : world) (rs : list reply) :
  execute cmds w = (Ok rs, w1) ->
  redis w1 = (run_commands (clock w) cmds (redis w)).2 /\ clock w1 = clock w.
Proof.
  unfold execute. destruct (faults w) as [|[|k] fs].
  - destruct (run_commands (clock w) cmds (redis w)) as [rs' d].
    intros [= <- <-]. split; reflexivity.
  - destruct (run_commands (clock w) cmds (redis w)) as [rs' d].
    intros [= <- <-]. split; reflexivity.
  - destruct (run_commands _ _ _) as [rs' d]. discriminate.
Qed.

(* An append that returned, whatever the fate of the other round trips,
   pushed both entries and trimmed. *)
Lemma update_chat_history_returned (user m r : string) (w w2 : world) :
  update_chat_history user m r w = (Ok tt, w2) ->
  stored (clock w) (redis w2) (history_key user)
  = lastn 10 (stored (clock w) (redis w) (history_key user) ++ exchange_entries (m, r)).
Proof.
  unfold update_chat_history, bind.
  destruct (execute _ w) as [[rs1|e1] w1] eqn:E1; [|discriminate].
  destruct (execute _ w1) as [[rs2|e2] w2'] eqn:E2; [|discriminate].
  unfold ret. intros [= <-]. apply execute_returned in E1, E2.
  destruct E1 as [R1 C1]. destruct E2 as [R2 C2].
  rewrite R2, R1, C1. simpl run_commands. cbn [fst snd].
  rewrite !stored_write_key. apply (slice_last 10). lia.
Qed.

Lemma update_chat_history_completed (user m r : string) (w : world) :
  (update_chat_history user m r w).1 = Ok tt ->
  stored (clock w) (redis (update_chat_history user m r w).2) (history_key user)
  = lastn 10 (stored (clock w) (redis w) (history_key user) ++ exchange_entries (m, r)).
Proof.
  destruct (update_chat_history user m r w) as [[[]|e] w2] eqn:E; [|discriminate].
  intros _. exact (update_chat_history_returned user m r w w2 E).
Qed.

(** C2, amended. On a working back end, after 11 exchanges (22 entries)
    appended for a user, [get_chat_history] returns exactly the most recent
    10 entries, oldest first (the earliest 12 are evicted), and the stored
    log has at most 10 entries after the appends.  Whatever the back end,
    after any append that completes (both of its commands went through) the
    stored log has at most 10 entries. *)
Theorem history_keeps_last_ten (user : string) (w : world)
    (xs : list (string * string)) :
  faults w = [] ->
  let w' := append_exchanges user xs w in
  let log := flat_map exchange_entries xs in
  (length xs = 11%nat ->
     (get_chat_history user w').1 = Ok (drop 12 log)
     /\ length (drop 12 log) = 10%nat)
  /\ (xs <> [] ->
      (length (stored (clock w') (redis w') (history_key user)) <= 10)%nat)
  /\ (forall m r w0,
        (update_chat_history user m r w0).1 = Ok tt ->
        (length (stored (clock w0) (redis (update_chat_history user m r w0).2)
                   (history_key user)) <= 10)%nat).
Proof.
  intros Hf w' log. subst log.
  assert (Hany : forall m r w0,
            (update_chat_history user m r w0).1 = Ok tt ->
            (length (stored (clock w0) (redis (update_chat_history user m r w0).2)
                       (history_key user)) <= 10)%nat).
  { intros m r w0 Hok. rewrite (update_chat_history_completed user m r w0 Hok).
    apply lastn_length. }
  destruct xs as [|x xs].
  - split; [discriminate|]. split; [congruence | exact Hany].
  - destruct (append_exchanges_stored user xs x w Hf) as (Hf' & Hc & Hst).
    fold w' in Hf', Hc, Hst.
    assert (Hlog : forall l, length (flat_map exchange_entries l) = (2 * length l)%nat).
    { clear. induction l as [|a l IH]; [reflexivity|]. simpl. rewrite IH. lia. }
    specialize (Hlog (x :: xs)).
    split; [|split; [|exact Hany]].
    + intros Hlen. rewrite Hlen in Hlog.
      rewrite get_chat_history_reliable by exact Hf'. simpl fst.
      rewrite Hc, Hst. rewrite lastn_app_r by lia.
      unfold lastn. rewrite Hlog. split; [reflexivity|].
      rewrite length_drop. lia.
    + intros _. rewrite Hc, Hst. apply lastn_length.
Qed.

Lemma history_keeps_last_ten_witness :
  (get_chat_history "alice" (append_exchanges "alice" eleven_exchanges boot)).1
  = Ok (drop 12 (flat_map exchange_entries eleven_exchanges)).
Proof.
  exact (proj1 (proj1 (history_keeps_last_ten "alice" boot eleven_exchanges eq_refl)
                  eq_refl)).
Defined.

(** C9. For a user with nothing stored [get_chat_history] returns the empty
    list, not an error; otherwise it returns the stored entries as they are,
    and an exchange appended lands at the end, after the older entries. *)
Theorem get_chat_history_oldest_first (user : string) (w : world) :
  faults w = [] ->
  (lookup_key (clock w) (redis w) (history_key user) = None ->
     get_chat_history user w = (Ok [], w))
  /\ get_chat_history user w
     = (Ok (stored (clock w) (redis w) (history_key user)), w)
  /\ forall m r,
       (get_chat_history user (update_chat_history user m r w).2).1
       = Ok (lastn 10 (stored (clock w) (redis w) (history_key user)
                       ++ [RText ("User: " +:+ m); RText ("AI: " +:+ r)])).
Proof.
  intros Hf. split; [|split].
  - intros Habs. rewrite get_chat_history_reliable by exact Hf.
    rewrite stored_absent by exact Habs. reflexivity.
  - apply get_chat_history_reliable. exact Hf.
  - intros m r.
    destruct (update_chat_history_reliable user m r w Hf) as (d' & -> & Hs).
    simpl. rewrite get_chat_history_reliable by exact Hf.
    simpl. rewrite Hs. reflexivity.
Qed.

Lemma get_chat_history_oldest_first_witness :
  get_chat_history "nobody" boot = (Ok [], boot).
Proof.
  exact (proj1 (get_chat_history_oldest_first "nobody" boot eq_refl) eq_refl).
Defined.

(** ** Substrings *)

Lemma append_cons (c : ascii) (s b : string) :
  String c s +:+ b = String c (s +:+ b).
Proof. reflexivity. Qed.

Lemma prefix_append (sub s : string) :
  String.prefix sub s = true <-> exists b, s = sub +:+ b.
Proof.
  revert s. induction sub as [|c sub IH]; intros s; simpl.
  - split; [intros _; exists s; reflexivity | destruct s; reflexivity].
  - destruct s as [|c' s]; simpl.
    + split; [discriminate | intros [b Hb]; discriminate].
    + destruct (ascii_dec c c') as [->|Hne].
      * rewrite IH. split; intros [b Hb]; exists b;
          rewrite append_cons in *; congruence.
      * split; [discriminate | intros [b Hb]; rewrite append_cons in Hb; congruence].
Qed.

Lemma contains_unfold (sub s : string) :
  PyStr.contains sub s
  = String.prefix sub s
    || match s with EmptyString => false | String _ r => PyStr.contains sub r end.
Proof. destruct s; reflexivity. Qed.

(* [sub in s] holds exactly when [sub] occurs somewhere in [s]. *)
Lemma contains_spec (sub s : string) :
  PyStr.contains sub s = true <-> exists a b, s = a +:+ sub +:+ b.
Proof.
  split.
  - induction s as [|c s IH]; rewrite contains_unfold; intros H;
      apply orb_true_iff in H; destruct H as [H|H].
    + apply prefix_append in H. destruct H as [b ->]. exists EmptyString, b. reflexivity.
    + discriminate.
    + apply prefix_append in H. destruct H as [b ->]. exists EmptyString, b. reflexivity.
    + destruct (IH H) as (a & b & ->). exists (String c a), b. reflexivity.
  - intros (a & b & ->). induction a as [|c a IH]; rewrite contains_unfold.
    + apply orb_true_iff. left. apply prefix_append. exists b. reflexivity.
    + apply orb_true_iff. right. exact IH.
Qed.

(* s.replace("price of", "") scans from the left: an occurrence at the head
   is dropped and the scan resumes right after it; any other character is
   kept and the scan resumes at the next one. *)
Lemma replace_price_of_head (s : string) :
  PyStr.replace "price of" "" ("price of" +:+ s) = PyStr.replace "price of" "" s.
Proof. destruct s; reflexivity. Qed.

Lemma replace_price_of_step (c : ascii) (s : string) :
  String.prefix "price of" (String c s) = false ->
  PyStr.replace "price of" "" (String c s)
  = String c (PyStr.replace "price of" "" s).
Proof. intros H. unfold PyStr.replace. cbn [PyStr.replace_scan]. rewrite H. reflexivity. Qed.

(* Python's replace with an empty replacement cuts every occurrence out. *)
Lemma length_append (a b : string) :
  String.length (a +:+ b) = (String.length a + String.length b)%nat.
Proof.
  induction a as [|c a IH]; [reflexivity|].
  rewrite append_cons. simpl. rewrite IH. reflexivity.
Qed.

Lemma replace_cut_out (s : string) :
  cut_out "price of" s (PyStr.replace "price of" "" s).
Proof.
  assert (H : forall n s, (String.length s <= n)%nat ->
                cut_out "price of" s (PyStr.replace "price of" "" s)).
  { clear s. induction n as [|n IH]; intros s Hlen.
    - destruct s; [constructor | simpl in Hlen; lia].
    - destruct s as [|c s]; [constructor|].
      destruct (String.prefix "price of" (String c s)) eqn:Hp.
      + apply prefix_append in Hp. destruct Hp as [b Hb]. rewrite Hb.
        rewrite replace_price_of_head. apply cut_hit. apply IH.
        apply (f_equal String.length) in Hb. rewrite length_append in Hb.
        simpl in Hb, Hlen. lia.
      + rewrite (replace_price_of_step c s Hp). apply cut_keep; [exact Hp|].
        apply IH. simpl in Hlen. lia. }
  apply (H (String.length s)). lia.
Qed.

(* strip() drops white space, all of it and nothing else, at both ends. *)
Lemma lstrip_split (s : string) :
  exists l, s = l +:+ PyStr.lstrip s /\ blank l.
Proof.
  induction s as [|c s (l & Hs & Hl)]; [exists EmptyString; split; reflexivity|].
  cbn [PyStr.lstrip]. destruct (PyStr.isspace c) eqn:Hc.
  - exists (String c l). split.
    + rewrite append_cons, <- Hs. reflexivity.
    + unfold blank. simpl. rewrite Hc. exact Hl.
  - exists EmptyString. split; reflexivity.
Qed.

Lemma lstrip_first (s : string) (c : ascii) :
  first_char (PyStr.lstrip s) = Some c -> PyStr.isspace c = false.
Proof.
  induction s as [|c0 s IH]; [discriminate|].
  cbn [PyStr.lstrip]. destruct (PyStr.isspace c0) eqn:Hc; [exact IH|].
  simpl. intros [= <-]. exact Hc.
Qed.

Lemma rstrip_cons (c : ascii) (r : string) :
  PyStr.rstrip (String c r)
  = match PyStr.rstrip r with
    | EmptyString => if PyStr.isspace c then EmptyString else String c EmptyString
    | String c' r' => String c (String c' r')
    end.
Proof. simpl. destruct (PyStr.rstrip r); reflexivity. Qed.

Lemma rstrip_split (s : string) :
  exists r, s = PyStr.rstrip s +:+ r /\ blank r.
Proof.
  induction s as [|c s (r & Hs & Hr)]; [exists EmptyString; split; reflexivity|].
  rewrite rstrip_cons. destruct (PyStr.rstrip s) as [|c' r'].
  - change (EmptyString +:+ r) with r in Hs. subst r.
    destruct (PyStr.isspace c) eqn:Hc.
    + exists (String c s). split; [reflexivity|].
      unfold blank. simpl. rewrite Hc. exact Hr.
    + exists s. split; [reflexivity | exact Hr].
  - exists r. split; [|exact Hr].
    rewrite append_cons, <- Hs. reflexivity.
Qed.

Lemma rstrip_last (s : string) (c : ascii) :
  last_char (PyStr.rstrip s) = Some c -> PyStr.isspace c = false.
Proof.
  induction s as [|c0 s IH]; [discriminate|].
  rewrite rstrip_cons. destruct (PyStr.rstrip s) as [|c' r'].
  - destruct (PyStr.isspace c0) eqn:Hc; [discriminate|].
    simpl. intros [= <-]. exact Hc.
  - exact IH.
Qed.

Lemma rstrip_first (s : string) (c : ascii) :
  first_char s = Some c -> PyStr.isspace c = false ->
  first_char (PyStr.rstrip s) = Some c.
Proof.
  destruct s as [|c0 s]; [discriminate|]. intros H Hc.
  simpl in H. injection H as ->.
  rewrite rstrip_cons. destruct (PyStr.rstrip s); [rewrite Hc|]; reflexivity.
Qed.

Lemma strip_spec (s : string) :
  exists l r,
    s = l +:+ PyStr.strip s +:+ r /\ blank l /\ blank r /\ trimmed (PyStr.strip s).
Proof.
  destruct (lstrip_split s) as (l & Hs & Hl).
  destruct (rstrip_split (PyStr.lstrip s)) as (r & Hm & Hr).
  exists l, r. unfold PyStr.strip. split; [|split; [exact Hl|split; [exact Hr|]]].
  - rewrite <- Hm. exact Hs.
  - split.
    + intros c Hc. destruct (PyStr.lstrip s) as [|c0 t] eqn:E; [discriminate|].
      assert (H0 : PyStr.isspace c0 = false)
        by (apply (lstrip_first s); rewrite E; reflexivity).
      rewrite (rstrip_first (String c0 t) c0 eq_refl H0) in Hc.
      injection Hc as <-. exact H0.
    + intros c Hc. exact (rstrip_last _ c Hc).
Qed.

(** ** The cached price lookup *)

Section Lookup.

Variable http_get : Q -> string -> http_result.
Variable str_of_price : Q -> string.

#[local] Abbreviation wrapped := (fetch_crypto_price_wrapped http_get str_of_price).
#[local] Abbreviation fetch := (fetch_crypto_price http_get str_of_price).

(* The body never raises; it makes one request and leaves the rest alone. *)
Lemma wrapped_request (name : string) (w : world) :
  exists v w',
    wrapped name w = (Ok v, w')
    /\ http_log w' = http_log w ++ [price_url name]
    /\ clock w' = clock w
    /\ memory_cache w' = memory_cache w
    /\ redis w' = redis w
    /\ (lookup_fails (http_get (clock w) (price_url name)) name -> failure_text name v).
Proof.
  unfold fetch_crypto_price_wrapped, try_except, bind, session_get, response_json,
    logging_error, ret, raise, failure_text, lookup_fails.
  destruct (http_get (clock w) (price_url name)) as [e|status json]; simpl.
  - eexists _, _. repeat split. auto.
  - destruct (status =? 200)%Z eqn:Hs; simpl.
    + apply Z.eqb_eq in Hs.
      destruct json as [data|]; simpl.
      * destruct (data !! PyStr.lower name) as [price|].
        -- destruct (Qeq_bool price 0) eqn:Hp.
           ++ eexists _, _. repeat split. auto.
           ++ eexists _, _. repeat split. intros [?|?]; [contradiction | discriminate].
        -- eexists _, _. repeat split. auto.
      * eexists _, _. repeat split. auto.
    + eexists _, _. repeat split. auto.
Qed.

Lemma fetch_hit (name : string) (w : world) (v : string) (deadline : Q) :
  memory_cache w !! name = Some (v, deadline) ->
  (clock w < deadline)%Q ->
  fetch name w = (Ok v, w).
Proof.
  intros Hc Ht. apply Qltb_true in Ht.
  unfold fetch_crypto_price, cached, bind, cache_get. rewrite Hc, Ht. reflexivity.
Qed.

Lemma fetch_miss (name : string) (w : world) :
  (cache_get name w).1 = Ok None ->
  exists v w',
    fetch name w = (Ok v, w')
    /\ http_log w' = http_log w ++ [price_url name]
    /\ clock w' = clock w
    /\ memory_cache w' = <[name := (v, (clock w + 30)%Q)]> (memory_cache w)
    /\ redis w' = redis w
    /\ (lookup_fails (http_get (clock w) (price_url name)) name -> failure_text name v).
Proof.
  intros Hm.
  assert (Hg : cache_get name w = (Ok None, w)).
  { revert Hm. unfold cache_get.
    destruct (memory_cache w !! name) as [[v d]|]; [|reflexivity].
    destruct (Qltb (clock w) d); [discriminate | reflexivity]. }
  destruct (wrapped_request name w) as (v & w' & Hw & Hl & Hc & Hm' & Hr & Hfail).
  exists v, (set_memory_cache (<[name := (v, (clock w' + 30)%Q)]> (memory_cache w')) w').
  split.
  - unfold fetch_crypto_price, cached, bind. rewrite Hg, Hw. reflexivity.
  - simpl. rewrite Hc, Hm'. auto.
Qed.

(* Either the call is served from the cache, or it makes one request. *)
Lemma fetch_cases (name : string) (w : world) :
  (exists v, fetch name w = (Ok v, w))
  \/ (exists v w',
        fetch name w = (Ok v, w')
        /\ http_log w' = http_log w ++ [price_url name]
        /\ clock w' = clock w
        /\ memory_cache w' = <[name := (v, (clock w + 30)%Q)]> (memory_cache w)).
Proof.
  destruct (cache_get name w) as [o wg] eqn:Hg.
  assert (Ho : o = Ok None \/ exists v, o = Ok (Some v) /\ fetch name w = (Ok v, w)).
  { unfold fetch_crypto_price, cached, bind. rewrite Hg.
    revert Hg. unfold cache_get.
    destruct (memory_cache w !! name) as [[v d]|].
    - destruct (Qltb (clock w) d); intros [= <- <-]; eauto.
    - intros [= <- <-]; eauto. }
  destruct Ho as [->|(v & -> & Hv)].
  - right. destruct (fetch_miss name w) as (v & w' & H1 & H2 & H3 & H4 & _).
    + rewrite Hg. reflexivity.
    + eauto 10.
  - left. eauto.
Qed.

End Lookup.

Section Cache.

Variable http_get : Q -> string -> http_result.
Variable str_of_price : Q -> string.

#[local] Abbreviation fetch := (fetch_crypto_price http_get str_of_price).

(** C8. With the 30 second TTL: a first call for a key makes exactly one
    request upstream; a second call for the same key less than 30 seconds
    after it returns the stored value and makes none; a call after the TTL
    has elapsed makes one again. *)
Theorem cache_hit_then_expiry (name : string) (w : world) (t0 t1 t2 : Q) :
  memory_cache w !! name = None ->
  (t1 < t0 + 30)%Q -> (t0 + 30 < t2)%Q ->
  let c1 := fetch name (set_clock t0 w) in
  let c2 := fetch name (set_clock t1 c1.2) in
  let c3 := fetch name (set_clock t2 c2.2) in
  (exists v, c1.1 = Ok v /\ c2.1 = Ok v)
  /\ http_log c1.2 = http_log w ++ [price_url name]
  /\ http_log c2.2 = http_log c1.2
  /\ http_log c3.2 = http_log c2.2 ++ [price_url name].
Proof.
  intros Hnone H1 H2 c1 c2 c3.
  destruct (fetch_miss http_get str_of_price name (set_clock t0 w))
    as (v & w1 & E1 & L1 & C1 & M1 & _).
  { unfold cache_get. simpl. rewrite Hnone. reflexivity. }
  assert (E2 : fetch name (set_clock t1 w1) = (Ok v, set_clock t1 w1)).
  { apply (fetch_hit _ _ _ _ v (t0 + 30)%Q); simpl; [|exact H1].
    rewrite M1. apply lookup_insert_eq. }
  destruct (fetch_miss http_get str_of_price name (set_clock t2 (set_clock t1 w1)))
    as (v3 & w3 & E3 & L3 & _).
  { unfold cache_get. simpl. rewrite M1. simpl. rewrite lookup_insert_eq.
    assert (Qltb t2 (t0 + 30) = false) as ->; [|reflexivity].
    apply Qltb_false. apply Qlt_le_weak. exact H2. }
  subst c1 c2 c3. rewrite E1. simpl. rewrite E2. simpl. rewrite E3. simpl.
  split; [exists v; split; reflexivity|].
  split; [exact L1|]. split; [reflexivity | exact L3].
Qed.

(** C4, amended. A lookup that fails upstream (the request raises, the
    status is not 200, the body is not JSON or holds no quote) returns one
    of the three failure texts, never an exception; the text is stored like
    any result, so a second call for the same key within the TTL returns it
    without a new request. *)
Theorem failed_lookup_is_text_and_cached (name : string) (w : world) (t0 t1 : Q) :
  memory_cache w !! name = None ->
  lookup_fails (http_get t0 (price_url name)) name ->
  (t1 < t0 + 30)%Q ->
  let c1 := fetch name (set_clock t0 w) in
  let c2 := fetch name (set_clock t1 c1.2) in
  (exists v, c1.1 = Ok v /\ failure_text name v /\ c2.1 = Ok v)
  /\ http_log c1.2 = http_log w ++ [price_url name]
  /\ http_log c2.2 = http_log c1.2.
Proof.
  intros Hnone Hfail H1 c1 c2.
  destruct (fetch_miss http_get str_of_price name (set_clock t0 w))
    as (v & w1 & E1 & L1 & C1 & M1 & _ & Hv).
  { unfold cache_get. simpl. rewrite Hnone. reflexivity. }
  assert (E2 : fetch name (set_clock t1 w1) = (Ok v, set_clock t1 w1)).
  { apply (fetch_hit _ _ _ _ v (t0 + 30)%Q); simpl; [|exact H1].
    rewrite M1. apply lookup_insert_eq. }
  subst c1 c2. rewrite E1. simpl. rewrite E2. simpl.
  split; [exists v; repeat split; [apply Hv; exact Hfail]|].
  split; [exact L1 | reflexivity].
Qed.

End Cache.

Lemma cache_hit_then_expiry_witness :
  let c1 := fetch_crypto_price coingecko_up show_price "btc" (set_clock 0%Q boot) in
  let c2 := fetch_crypto_price coingecko_up show_price "btc" (set_clock 10%Q c1.2) in
  let c3 := fetch_crypto_price coingecko_up show_price "btc" (set_clock 31%Q c2.2) in
  (exists v, c1.1 = Ok v /\ c2.1 = Ok v)
  /\ http_log c1.2 = http_log boot ++ [price_url "btc"]
  /\ http_log c2.2 = http_log c1.2
  /\ http_log c3.2 = http_log c2.2 ++ [price_url "btc"].
Proof.
  apply (cache_hit_then_expiry coingecko_up show_price "btc" boot 0%Q 10%Q 31%Q).
  - reflexivity.
  - reflexivity.
  - reflexivity.
Defined.

(** C4, as the claim states it, fails: after a lookup that failed with
    status 500, a second call ten seconds later returns the stored failure
    text and makes no new request. *)
Lemma failure_cached_counterexample :
  let c1 := fetch_crypto_price coingecko_down show_price "btc" (set_clock 0%Q boot) in
  let c2 := fetch_crypto_price coingecko_down show_price "btc" (set_clock 10%Q c1.2) in
  c1.1 = Ok "Failed to fetch btc price."
  /\ c2.1 = Ok "Failed to fetch btc price."
  /\ http_log c2.2 = http_log c1.2
  /\ http_log c2.2 <> http_log c1.2 ++ [price_url "btc"].
Proof.
  vm_compute. repeat split. discriminate.
Qed.

Lemma failed_lookup_is_text_and_cached_witness :
  let c1 := fetch_crypto_price coingecko_down show_price "btc" (set_clock 0%Q boot) in
  let c2 := fetch_crypto_price coingecko_down show_price "btc" (set_clock 10%Q c1.2) in
  (exists v, c1.1 = Ok v /\ failure_text "btc" v /\ c2.1 = Ok v)
  /\ http_log c1.2 = http_log boot ++ [price_url "btc"]
  /\ http_log c2.2 = http_log c1.2.
Proof.
  apply (failed_lookup_is_text_and_cached coingecko_down show_price "btc" boot 0%Q 10%Q).
  - reflexivity.
  - left. discriminate.
  - reflexivity.
Defined.

(** C3, as the claim states it, fails: the cache is keyed on the argument as
    given, so a call with "BTC" ten seconds after a call with "btc" is a miss
    and makes a second request. *)
Lemma uppercase_key_counterexample :
  let c1 := fetch_crypto_price coingecko_up show_price "btc" (set_clock 0%Q boot) in
  let c2 := fetch_crypto_price coingecko_up show_price "BTC" (set_clock 10%Q c1.2) in
  http_log c2.2 = http_log c1.2 ++ [price_url "BTC"]
  /\ http_log c2.2 <> http_log c1.2.
Proof.
  vm_compute. split; [reflexivity | discriminate].
Qed.

Section Agent.

Variable http_get : Q -> string -> http_result.
Variable str_of_price : Q -> string.
Variable chat_completion : list message -> outcome string.

#[local] Abbreviation fetch := (fetch_crypto_price http_get str_of_price).
#[local] Abbreviation enforce := (enforce_english_response chat_completion).
#[local] Abbreviation agent := (ai_agent http_get str_of_price chat_completion).

(** C6. When the model call raises, [enforce_english_response] returns the
    fixed fallback message and Redis is left as it was: the history read
    again afterwards is the one read before the call, with no entry for the
    request. *)
Theorem model_failure_leaves_history (user user_input : string) (w : world)
    (history : list rval) (turns : list message) (e : exn) :
  (get_chat_history user w).1 = Ok history ->
  history_messages history = Ok turns ->
  chat_completion
    ([Message System "Respond in English and retain conversation context."]
       ++ turns ++ [Message User user_input]) = Raise e ->
  let result := (enforce user user_input w).1 in
  let w' := (enforce user user_input w).2 in
  result = Ok FALLBACK
  /\ redis w' = redis w
  /\ (faults w' = [] -> (get_chat_history user w').1 = Ok history).
Proof.
  intros Hread Hturns Hfail result w'.
  destruct (get_chat_history_read user w history Hread) as (Hh & Hr & Hc).
  destruct (get_chat_history user w) as [o wg] eqn:Hg.
  simpl in Hread, Hr, Hc. subst o.
  assert (He : enforce user user_input w
               = (Ok FALLBACK,
                  set_error_log (error_log wg ++ [("AI response error", e)]) wg)).
  { unfold enforce_english_response, bind at 1. rewrite Hg.
    unfold bind at 1, lift at 1. rewrite Hturns.
    unfold try_except, bind at 1, lift at 1. rewrite Hfail. reflexivity. }
  subst result w'. rewrite He. simpl.
  split; [reflexivity|]. split; [exact Hr|].
  intros Hf. rewrite get_chat_history_reliable by exact Hf. simpl.
  rewrite Hr, Hc, <- Hh. reflexivity.
Qed.

(* With a string (or no) action the route goes on with its checks; any
   other action raises before anything is looked at. *)
Lemma agent_with_action (data : request_json) (act : string) (w : world) :
  action_lower data = Ok act ->
  agent data w
  = match user_id data with
    | None | Some EmptyString => ret (HttpReply "Missing user_id." 400)
    | Some uid =>
        await allowed := rate_limited uid in
        if negb allowed then ret (HttpReply "Rate limit exceeded." 429)
        else if PyStr.contains "price" act then
          await r := fetch (PyStr.strip (PyStr.replace "price of" "" act)) in
          ret (HttpReply r 200)
        else if String.eqb act "translate" then
          await r := enforce uid (default "" (text data)) in
          ret (HttpReply r 200)
        else
          await r := enforce uid (default "" (text data)) in
          ret (HttpReply r 200)
    end w.
Proof. intros Ha. unfold ai_agent, bind at 1, lift at 1. rewrite Ha. reflexivity. Qed.

Lemma agent_action_error (data : request_json) (e : exn) (w : world) :
  action_lower data = Raise e -> agent data w = (Raise e, w).
Proof. intros Ha. unfold ai_agent, bind at 1, lift at 1. rewrite Ha. reflexivity. Qed.

(* An accepted request is routed on its lower-cased action alone. *)
Lemma agent_allowed (data : request_json) (uid act : string) (w w1 : world) :
  action_lower data = Ok act ->
  user_id data = Some uid -> uid <> EmptyString ->
  rate_limited uid w = (Ok true, w1) ->
  agent data w
  = (if PyStr.contains "price" act
     then
       await r := fetch (PyStr.strip (PyStr.replace "price of" "" act)) in
       ret (HttpReply r 200)
     else
       await r := enforce uid (default "" (text data)) in
       ret (HttpReply r 200)) w1.
Proof.
  intros Ha Hu Hne Hr. rewrite (agent_with_action data act w Ha). rewrite Hu.
  destruct uid as [|c uid]; [congruence|].
  unfold bind at 1. rewrite Hr. simpl negb. cbv iota.
  destruct (PyStr.contains _ _); [reflexivity|].
  destruct (String.eqb _ _); reflexivity.
Qed.

(** C10. For an accepted request the price lookup is taken exactly when the
    lower-cased action contains "price" somewhere.  The key it is called
    with is what is left of the lower-cased action when every occurrence of
    "price of", found scanning from the left, is cut out and the white space
    at both ends is dropped: the cut text is blank text, then the key, then
    blank text, and the key neither starts nor ends with white space.  So
    "priceless" is looked up under "priceless", "price btc" under
    "price btc", and " Price of BTC " (tabs and spaces around) under
    "btc". *)
Theorem price_route (data : request_json) (uid act : string) (w w1 : world) :
  action_lower data = Ok act ->
  user_id data = Some uid -> uid <> EmptyString ->
  rate_limited uid w = (Ok true, w1) ->
  ((exists a b, act = a +:+ "price" +:+ b) ->
     exists cut l key r,
       cut_out "price of" act cut
       /\ cut = l +:+ key +:+ r /\ blank l /\ blank r /\ trimmed key
       /\ agent data w = (await r := fetch key in ret (HttpReply r 200)) w1)
  /\ (~ (exists a b, act = a +:+ "price" +:+ b) ->
     agent data w
     = (await r := enforce uid (default "" (text data)) in ret (HttpReply r 200)) w1)
  /\ (action data = Some (JStr "priceless") ->
     agent data w = (await r := fetch "priceless" in ret (HttpReply r 200)) w1)
  /\ (action data = Some (JStr "price btc") ->
     agent data w = (await r := fetch "price btc" in ret (HttpReply r 200)) w1)
  /\ (action data = Some (JStr tab_price_of_btc) ->
     agent data w = (await r := fetch "btc" in ret (HttpReply r 200)) w1)
  /\ (action data = Some (JStr "price of price of eth") ->
     agent data w = (await r := fetch "eth" in ret (HttpReply r 200)) w1).
Proof.
  intros Hact Hu Hne Hr.
  pose proof (agent_allowed data uid act w w1 Hact Hu Hne Hr) as Ha.
  assert (Hex : forall a k,
            action data = Some (JStr a) ->
            PyStr.contains "price" (PyStr.lower a) = true ->
            PyStr.strip (PyStr.replace "price of" "" (PyStr.lower a)) = k ->
            agent data w = (await r := fetch k in ret (HttpReply r 200)) w1).
  { intros a k Hd Hc Hk. unfold action_lower in Hact. rewrite Hd in Hact.
    simpl in Hact. injection Hact as <-. rewrite Hc, Hk in Ha. exact Ha. }
  split; [|split; [|split; [|split; [|split]]]].
  - intros Hin. apply contains_spec in Hin. rewrite Hin in Ha.
    destruct (strip_spec (PyStr.replace "price of" "" act))
      as (l & r & Hsplit & Hl & Hrb & Htr).
    exists (PyStr.replace "price of" "" act), l,
      (PyStr.strip (PyStr.replace "price of" "" act)), r.
    split; [apply replace_cut_out|]. repeat (split; [assumption|]). exact Ha.
  - intros Hout. destruct (PyStr.contains "price" act) eqn:Hc; [|exact Ha].
    exfalso. apply Hout. apply contains_spec. exact Hc.
  - intros Hd. apply (Hex _ _ Hd); reflexivity.
  - intros Hd. apply (Hex _ _ Hd); reflexivity.
  - intros Hd. apply (Hex _ _ Hd); reflexivity.
  - intros Hd. apply (Hex _ _ Hd); reflexivity.
Qed.

(* A request answered with status 200 on the price path: the limiter
   accepted it and the reply is the lookup's result. *)
Lemma agent_price_reply (data : request_json) (act : string) (w : world)
    (body : string) :
  action_lower data = Ok act ->
  PyStr.contains "price" act = true ->
  (agent data w).1 = Ok (HttpReply body 200) ->
  exists wr,
    same_frame w wr
    /\ agent data w
       = (await r := fetch (PyStr.strip (PyStr.replace "price of" "" act)) in
          ret (HttpReply r 200)) wr.
Proof.
  intros Ha Hp Hok.
  destruct (user_id data) as [uid|] eqn:Hu.
  - destruct (decide (uid = EmptyString)) as [->|Hne].
    + rewrite (agent_with_action data act w Ha) in Hok. rewrite Hu in Hok.
      discriminate Hok.
    + destruct (rate_limited_frame uid w) as (b & wr & Hr & Hfr).
      destruct b.
      * exists wr. split; [exact Hfr|].
        rewrite (agent_allowed data uid act w wr Ha Hu Hne Hr), Hp. reflexivity.
      * rewrite (agent_with_action data act w Ha) in Hok. rewrite Hu in Hok.
        destruct uid as [|c uid]; [congruence|].
        unfold bind at 1 in Hok. rewrite Hr in Hok. discriminate Hok.
  - rewrite (agent_with_action data act w Ha) in Hok. rewrite Hu in Hok.
    discriminate Hok.
Qed.

(** C3, amended. The cache is keyed on the argument as given; the route
    lower-cases the action before it derives the key.  So for two accepted
    price requests whose actions differ only in letter case, the second one,
    made within the TTL of the first one's upstream request, is served from
    the cache: no new request, the same text. *)
Theorem route_key_is_lower_cased (d1 d2 : request_json) (act : string) (w : world)
    (t1 : Q) (b1 b2 : string) :
  action_lower d1 = Ok act ->
  action_lower d2 = Ok act ->
  PyStr.contains "price" act = true ->
  let c1 := agent d1 w in
  let c2 := agent d2 (set_clock t1 c1.2) in
  c1.1 = Ok (HttpReply b1 200) ->
  c2.1 = Ok (HttpReply b2 200) ->
  http_log c1.2 <> http_log w ->
  (t1 < clock w + 30)%Q ->
  http_log c2.2 = http_log c1.2 /\ b2 = b1.
Proof.
  intros Ha1 Ha2 Hp c1 c2 H1 H2 Hreq Ht.
  destruct (agent_price_reply d1 act w b1 Ha1 Hp H1) as (wr & (Fc & Fm & Fl) & E1).
  remember (PyStr.strip (PyStr.replace "price of" "" act)) as key eqn:Hkey.
  destruct (fetch_cases http_get str_of_price key wr)
    as [(v & Ev)|(v & w1 & Ev & L1 & C1 & M1)].
  - (* the first request was itself served from the cache *)
    assert (E1' : agent d1 w = (Ok (HttpReply v 200), wr))
      by (rewrite E1; unfold bind; rewrite Ev; reflexivity).
    exfalso. apply Hreq. subst c1. rewrite E1'. exact Fl.
  - assert (E1' : agent d1 w = (Ok (HttpReply v 200), w1))
      by (rewrite E1; unfold bind; rewrite Ev; reflexivity).
    subst c2 c1. rewrite E1' in H1, H2 |- *. cbn [fst snd] in H1, H2 |- *.
    injection H1 as <-.
    destruct (agent_price_reply d2 act (set_clock t1 w1) b2 Ha2 Hp H2)
      as (wr2 & (Fc2 & Fm2 & Fl2) & E2).
    rewrite <- Hkey in E2. simpl in Fc2, Fm2, Fl2.
    assert (Eh : fetch key wr2 = (Ok v, wr2)).
    { apply (fetch_hit _ _ _ _ v (clock wr + 30)%Q).
      - rewrite Fm2, M1. apply lookup_insert_eq.
      - rewrite Fc2, Fc. exact Ht. }
    assert (E2' : agent d2 (set_clock t1 w1) = (Ok (HttpReply v 200), wr2))
      by (rewrite E2; unfold bind; rewrite Eh; reflexivity).
    rewrite E2' in H2 |- *. cbn [fst snd] in H2 |- *. injection H2 as <-.
    split; [exact Fl2 | reflexivity].
Qed.

End Agent.

Lemma model_failure_leaves_history_witness :
  let w := append_exchanges "alice" [("q1", "a1")] boot in
  (enforce_english_response model_down "alice" "hello" w).1 = Ok FALLBACK
  /\ redis (enforce_english_response model_down "alice" "hello" w).2 = redis w
  /\ (faults (enforce_english_response model_down "alice" "hello" w).2 = [] ->
      (get_chat_history "alice" (enforce_english_response model_down "alice" "hello" w).2).1
      = Ok [RText "User: q1"; RText "AI: a1"]).
Proof.
  intros w.
  apply (model_failure_leaves_history model_down "alice" "hello" w
           [RText "User: q1"; RText "AI: a1"]
           [Message User "q1"; Message Assistant "a1"] ModelError).
  - reflexivity.
  - reflexivity.
  - reflexivity.
Defined.

Lemma price_route_witness :
  ai_agent coingecko_up show_price model_echo tab_request boot
  = (await r := fetch_crypto_price coingecko_up show_price "btc" in
     ret (HttpReply r 200)) (rate_limited "alice" boot).2.
Proof.
  refine (proj1 (proj2 (proj2 (proj2 (proj2
            (price_route coingecko_up show_price model_echo tab_request
               "alice" (PyStr.lower tab_price_of_btc) boot
               (rate_limited "alice" boot).2 eq_refl eq_refl _ _))))) eq_refl).
  - discriminate.
  - vm_compute. reflexivity.
Defined.

Lemma route_key_is_lower_cased_witness :
  let c1 := ai_agent coingecko_up show_price model_echo lower_request boot in
  let c2 := ai_agent coingecko_up show_price model_echo upper_request
              (set_clock 10%Q c1.2) in
  http_log c2.2 = http_log c1.2
  /\ "The current price of Btc is $50000" = "The current price of Btc is $50000".
Proof.
  apply (route_key_is_lower_cased coingecko_up show_price model_echo
           lower_request upper_request "price of btc" boot 10%Q).
  - reflexivity.
  - reflexivity.
  - reflexivity.
  - vm_compute. reflexivity.
  - vm_compute. reflexivity.
  - vm_compute. discriminate.
  - reflexivity.
Defined.

(** * Further properties of the handlers *)

(** ** Relations preserved along a coroutine *)

Section Preserve.

Variable R : world -> world -> Prop.
Hypothesis R_refl : forall w, R w w.
Hypothesis R_trans : forall w1 w2 w3, R w1 w2 -> R w2 w3 -> R w1 w3.

Lemma preserves_ret {A} (a : A) : preserves R (ret a).
Proof. intros w. apply R_refl. Qed.

Lemma preserves_lift {A} (o : outcome A) : preserves R (lift o).
Proof. intros w. apply R_refl. Qed.

Lemma preserves_time_time : preserves R time_time.
Proof. intros w. apply R_refl. Qed.

Lemma preserves_bind {A B} (m : task A) (k : A -> task B) :
  preserves R m -> (forall a, preserves R (k a)) -> preserves R (bind m k).
Proof.
  intros Hm Hk w. unfold bind. specialize (Hm w).
  destruct (m w) as [[a|e] w1]; simpl in *; [|exact Hm].
  eapply R_trans; [exact Hm | apply Hk].
Qed.

Lemma preserves_try_except {A} (body : task A) (handler : exn -> task A) :
  preserves R body -> (forall e, preserves R (handler e)) ->
  preserves R (try_except body handler).
Proof.
  intros Hb Hh w. unfold try_except. specialize (Hb w).
  destruct (body w) as [[a|e] w1]; simpl in *; [exact Hb|].
  eapply R_trans; [exact Hb | apply Hh].
Qed.

End Preserve.

(** ** Keys *)

Lemma untouched_refl (key : string) (w : world) : untouched key w w.
Proof. split; reflexivity. Qed.

Lemma untouched_trans (key : string) (w1 w2 w3 : world) :
  untouched key w1 w2 -> untouched key w2 w3 -> untouched key w1 w3.
Proof. unfold untouched. intros [? ?] [? ?]. split; congruence. Qed.

Lemma untouched_stored (key : string) (w w' : world) (t : Q) :
  untouched key w w' -> stored t (redis w') key = stored t (redis w) key.
Proof.
  intros [Hl He]. unfold stored, lookup_key, expired. rewrite Hl, He. reflexivity.
Qed.

Lemma write_key_other (now : Q) (key k : string) (l : list rval) (d : db) :
  key <> k ->
  lists (write_key now key l d) !! k = lists d !! k
  /\ expires (write_key now key l d) !! k = expires d !! k.
Proof.
  intros Hne. destruct l as [|a l]; simpl.
  - rewrite !lookup_delete_ne by exact Hne. split; reflexivity.
  - rewrite lookup_insert_ne by exact Hne. split; [reflexivity|].
    destruct (lookup_key now d key); [reflexivity|].
    apply lookup_delete_ne. exact Hne.
Qed.

Lemma run_command_other (now : Q) (c : command) (d : db) (k : string) :
  command_key c <> k ->
  lists (run_command now c d).2 !! k = lists d !! k
  /\ expires (run_command now c d).2 !! k = expires d !! k.
Proof.
  intros Hne. destruct c as [key a b|key vs|key a b|key secs]; simpl in Hne |- *.
  - split; reflexivity.
  - apply write_key_other. exact Hne.
  - apply write_key_other. exact Hne.
  - destruct (lookup_key now d key); [|split; reflexivity].
    destruct (Qle_bool secs 0); simpl.
    + rewrite !lookup_delete_ne by exact Hne. split; reflexivity.
    + rewrite lookup_insert_ne by exact Hne. split; reflexivity.
Qed.

Lemma run_commands_other (now : Q) (cs : list command) (d : db) (k : string) :
  Forall (fun c => command_key c <> k) cs ->
  lists (run_commands now cs d).2 !! k = lists d !! k
  /\ expires (run_commands now cs d).2 !! k = expires d !! k.
Proof.
  revert d. induction cs as [|c cs IH]; intros d Hall; [split; reflexivity|].
  inversion Hall as [|? ? Hc Hcs]; subst. simpl.
  pose proof (run_command_other now c d k Hc) as [Hl He].
  destruct (run_command now c d) as [r d1]. simpl in Hl, He.
  specialize (IH d1 Hcs).
  destruct (run_commands now cs d1) as [rs d2]. simpl in *.
  destruct IH as [Hl2 He2]. split; congruence.
Qed.

(* A round trip on one key leaves every other key alone, broken or not. *)
Lemma execute_untouched (cs : list command) (k : string) :
  Forall (fun c => command_key c <> k) cs -> preserves (untouched k) (execute cs).
Proof.
  intros Hall w. unfold execute.
  destruct (faults w) as [|[|n] fs].
  - pose proof (run_commands_other (clock w) cs (redis w) k Hall) as H.
    destruct (run_commands _ _ _) as [rs d]. exact H.
  - pose proof (run_commands_other (clock w) cs (redis w) k Hall) as H.
    destruct (run_commands _ _ _) as [rs d]. exact H.
  - pose proof (run_commands_other (clock w) (take n cs) (redis w) k
                  ltac:(apply Forall_take; exact Hall)) as H.
    destruct (run_commands _ _ _) as [rs d]. exact H.
Qed.

Lemma logging_error_untouched (k what : string) (e : exn) :
  preserves (untouched k) (logging_error what e).
Proof. intros w. split; reflexivity. Qed.

Lemma rate_limit_key_inj (a b : string) : rate_limit_key a = rate_limit_key b -> a = b.
Proof.
  unfold rate_limit_key. intros H.
  cbv beta iota delta [String.append] in H. congruence.
Qed.

Lemma history_key_inj (a b : string) : history_key a = history_key b -> a = b.
Proof.
  unfold history_key. intros H.
  cbv beta iota delta [String.append] in H. congruence.
Qed.

Lemma rate_limit_key_not_history (a b : string) : rate_limit_key a <> history_key b.
Proof. unfold rate_limit_key, history_key. rewrite !append_cons. congruence. Qed.

(** ** Isolation: which keys a handler can change *)

Ltac untouched_step :=
  first
    [ apply preserves_ret; exact (untouched_refl _)
    | apply preserves_lift; exact (untouched_refl _)
    | apply preserves_time_time; exact (untouched_refl _)
    | apply logging_error_untouched
    | apply execute_untouched; repeat constructor; simpl; assumption ].

Lemma rate_limited_untouched (user k : string) :
  rate_limit_key user <> k -> preserves (untouched k) (rate_limited user).
Proof.
  intros Hne. unfold rate_limited.
  apply (preserves_bind _ (untouched_trans k)); [untouched_step|]. intros now.
  apply (preserves_try_except _ (untouched_trans k)).
  - repeat (apply (preserves_bind _ (untouched_trans k)); [untouched_step|]; intros ?).
    destruct (_ <=? _)%nat; [untouched_step|].
    apply (preserves_bind _ (untouched_trans k)); [untouched_step|].
    intros ?. untouched_step.
  - intros e. apply (preserves_bind _ (untouched_trans k)); [untouched_step|].
    intros ?. untouched_step.
Qed.

Lemma update_chat_history_untouched (user m r k : string) :
  history_key user <> k -> preserves (untouched k) (update_chat_history user m r).
Proof.
  intros Hne. unfold update_chat_history.
  repeat (apply (preserves_bind _ (untouched_trans k)); [untouched_step|]; intros ?).
  untouched_step.
Qed.

Lemma get_chat_history_untouched (user k : string) :
  preserves (untouched k) (get_chat_history user).
Proof.
  intros w. unfold get_chat_history, bind, lift, ret, execute.
  destruct (faults w) as [|[|[|n]] fs]; simpl;
    rewrite ?take_nil; simpl;
    rewrite ?slice_all; try destruct (stored _ _ _); split; reflexivity.
Qed.

(** X1. Whatever the state of the back end, [rate_limited] never raises and
    changes Redis under the caller's own rate-limit key only: the windows of
    the other users and every chat history read the same afterwards, and the
    price cache and the upstream log are as before. *)
Theorem rate_limited_isolated (user : string) (w : world) :
  let w' := (rate_limited user w).2 in
  (exists b, (rate_limited user w).1 = Ok b)
  /\ (forall other t, other <> user ->
        stored t (redis w') (rate_limit_key other)
        = stored t (redis w) (rate_limit_key other))
  /\ (forall u t,
        stored t (redis w') (history_key u) = stored t (redis w) (history_key u))
  /\ memory_cache w' = memory_cache w
  /\ http_log w' = http_log w.
Proof.
  intros w'. split; [apply rate_limited_never_raises|]. split; [|split].
  - intros other t Hne. apply untouched_stored.
    apply rate_limited_untouched. intros H. apply rate_limit_key_inj in H. congruence.
  - intros u t. apply untouched_stored.
    apply rate_limited_untouched. apply rate_limit_key_not_history.
  - destruct (rate_limited_keeps_frame user w) as (_ & Hm & Hl). split; assumption.
Qed.

(** X2. Whatever the state of the back end, [update_chat_history] changes
    Redis under the user's own history key only: the histories of the other
    users and every rate-limit window read the same afterwards. *)
Theorem update_chat_history_isolated (user m r : string) (w : world) :
  let w' := (update_chat_history user m r w).2 in
  (forall other t, other <> user ->
     stored t (redis w') (history_key other) = stored t (redis w) (history_key other))
  /\ (forall u t,
        stored t (redis w') (rate_limit_key u) = stored t (redis w) (rate_limit_key u)).
Proof.
  intros w'. split.
  - intros other t Hne. apply untouched_stored.
    apply update_chat_history_untouched. intros H. apply history_key_inj in H. congruence.
  - intros u t. apply untouched_stored.
    apply update_chat_history_untouched. intros H.
    symmetry in H. exact (rate_limit_key_not_history _ _ H).
Qed.

Section AgentIsolation.

Variable http_get : Q -> string -> http_result.
Variable str_of_price : Q -> string.
Variable chat_completion : list message -> outcome string.

#[local] Abbreviation fetch := (fetch_crypto_price http_get str_of_price).
#[local] Abbreviation enforce := (enforce_english_response chat_completion).
#[local] Abbreviation agent := (ai_agent http_get str_of_price chat_completion).

(* The price lookup never touches Redis. *)
Lemma fetch_keeps_redis (name : string) (w : world) : redis (fetch name w).2 = redis w.
Proof.
  destruct (cache_get name w) as [o wg] eqn:Hg.
  assert (Hc : (o = Ok None \/ exists v, o = Ok (Some v)) /\ wg = w).
  { revert Hg. unfold cache_get.
    destruct (memory_cache w !! name) as [[v d]|];
      [destruct (Qltb (clock w) d)|]; intros [= <- <-]; eauto. }
  destruct Hc as [[->|[v ->]] ->].
  - destruct (fetch_miss http_get str_of_price name w) as (v & w' & -> & _ & _ & _ & Hr & _).
    + rewrite Hg. reflexivity.
    + exact Hr.
  - unfold fetch_crypto_price, cached, bind. rewrite Hg. reflexivity.
Qed.

Lemma fetch_untouched (name k : string) : preserves (untouched k) (fetch name).
Proof. intros w. unfold untouched. rewrite fetch_keeps_redis. split; reflexivity. Qed.

Lemma enforce_untouched (user user_input k : string) :
  history_key user <> k -> preserves (untouched k) (enforce user user_input).
Proof.
  intros Hne. unfold enforce_english_response.
  apply (preserves_bind _ (untouched_trans k)); [apply get_chat_history_untouched|].
  intros history.
  apply (preserves_bind _ (untouched_trans k)); [untouched_step|]. intros turns.
  apply (preserves_try_except _ (untouched_trans k)).
  - apply (preserves_bind _ (untouched_trans k)); [untouched_step|]. intros reply.
    apply (preserves_bind _ (untouched_trans k));
      [apply update_chat_history_untouched; exact Hne|].
    intros ?. untouched_step.
  - intros e. apply (preserves_bind _ (untouched_trans k)); [untouched_step|].
    intros ?. untouched_step.
Qed.

Lemma update_chat_history_keeps_frame (user m r : string) :
  keeps_frame (update_chat_history user m r).
Proof.
  unfold update_chat_history.
  repeat (apply keeps_bind; [auto with frame|]; intros ?). auto with frame.
Qed.

Lemma get_chat_history_keeps_frame (user : string) : keeps_frame (get_chat_history user).
Proof.
  unfold get_chat_history.
  repeat (apply keeps_bind; [auto with frame|]; intros ?). auto with frame.
Qed.

(* The conversation path makes no upstream request and leaves the cache. *)
Lemma enforce_keeps_frame (user user_input : string) :
  keeps_frame (enforce user user_input).
Proof.
  unfold enforce_english_response.
  apply keeps_bind; [apply get_chat_history_keeps_frame|]. intros history.
  apply keeps_bind; [auto with frame|]. intros turns.
  apply keeps_try_except.
  - apply keeps_bind; [auto with frame|]. intros reply.
    apply keeps_bind; [apply update_chat_history_keeps_frame|]. auto with frame.
  - intros e. apply keeps_bind; auto with frame.
Qed.

Lemma agent_untouched (data : request_json) (k : string) :
  (forall uid, user_id data = Some uid ->
     rate_limit_key uid <> k
     /\ (forall act, action_lower data = Ok act ->
         PyStr.contains "price" act = false -> history_key uid <> k)) ->
  preserves (untouched k) (agent data).
Proof.
  intros Hk w.
  destruct (action_lower data) as [act|e] eqn:Ha;
    [|rewrite (agent_action_error _ _ _ data e w Ha); apply untouched_refl].
  rewrite (agent_with_action _ _ _ data act w Ha). revert w.
  destruct (user_id data) as [uid|]; [|untouched_step].
  destruct (Hk uid eq_refl) as [Hr Hh].
  destruct uid as [|c uid]; [untouched_step|].
  apply (preserves_bind _ (untouched_trans k));
    [apply rate_limited_untouched; exact Hr|].
  intros allowed. destruct allowed; simpl negb; cbv iota; [|untouched_step].
  destruct (PyStr.contains "price" act) eqn:Hp.
  - apply (preserves_bind _ (untouched_trans k)); [apply fetch_untouched|].
    intros ?. untouched_step.
  - destruct (String.eqb _ _);
      (apply (preserves_bind _ (untouched_trans k));
        [apply enforce_untouched; apply (Hh act eq_refl Hp)
        | intros ?; untouched_step]).
Qed.

Lemma agent_keeps_frame (data : request_json) (act : string) :
  action_lower data = Ok act ->
  PyStr.contains "price" act = false ->
  keeps_frame (agent data).
Proof.
  intros Ha Hp w. rewrite (agent_with_action _ _ _ data act w Ha). revert w.
  rewrite Hp.
  destruct (user_id data) as [[|c uid]|]; [auto with frame | | auto with frame].
  apply keeps_bind; [apply rate_limited_keeps_frame|].
  intros allowed. destruct allowed; simpl negb; cbv iota; [|auto with frame].
  destruct (String.eqb _ _);
    (apply keeps_bind; [apply enforce_keeps_frame | auto with frame]).
Qed.

(** X3. Whatever the request and the state of the back end, the route
    changes Redis only under the requesting user's own rate-limit and history
    keys; a request whose action contains "price" changes no chat history at
    all, and any other request makes no upstream price request and leaves
    the price cache as it was. *)
Theorem ai_agent_isolated (data : request_json) (w : world) :
  let w' := (agent data w).2 in
  (forall other t, user_id data <> Some other ->
     stored t (redis w') (rate_limit_key other) = stored t (redis w) (rate_limit_key other)
     /\ stored t (redis w') (history_key other) = stored t (redis w) (history_key other))
  /\ (forall act, action_lower data = Ok act -> PyStr.contains "price" act = true ->
      forall u t, stored t (redis w') (history_key u) = stored t (redis w) (history_key u))
  /\ (forall act, action_lower data = Ok act -> PyStr.contains "price" act = false ->
      memory_cache w' = memory_cache w /\ http_log w' = http_log w).
Proof.
  intros w'. split; [|split].
  - intros other t Hne. split; apply untouched_stored; apply agent_untouched;
      intros uid Hu; split.
    + intros H. apply rate_limit_key_inj in H. congruence.
    + intros act _ _ H. symmetry in H. exact (rate_limit_key_not_history _ _ H).
    + apply rate_limit_key_not_history.
    + intros act _ _ H. apply history_key_inj in H. congruence.
  - intros act Ha Hp u t. apply untouched_stored. apply agent_untouched.
    intros uid Hu. split; [apply rate_limit_key_not_history|].
    intros act' Ha' Hp'. rewrite Ha in Ha'. injection Ha' as <-. congruence.
  - intros act Ha Hp. destruct (agent_keeps_frame data act Ha Hp w) as (_ & Hm & Hl).
    split; assumption.
Qed.

End AgentIsolation.

(** ** The stored history, read back as model context *)

Lemma split_user_entry (m : string) :
  split_entry (RText ("User: " +:+ m)) = Ok ("User", m).
Proof. destruct m; reflexivity. Qed.

Lemma split_ai_entry (r : string) :
  split_entry (RText ("AI: " +:+ r)) = Ok ("AI", r).
Proof. destruct r; reflexivity. Qed.

Lemma history_messages_cons (entry : rval) (rest : list rval)
    (r c : string) (ms : list message) :
  split_entry entry = Ok (r, c) -> history_messages rest = Ok ms ->
  history_messages (entry :: rest)
  = Ok (Message (if String.eqb r "User" then User else Assistant) c :: ms).
Proof. intros He Hr. simpl. rewrite He, Hr. reflexivity. Qed.

Lemma history_messages_exchanges (xs : list (string * string)) (n : nat) :
  history_messages (drop n (flat_map exchange_entries xs))
  = Ok (drop n (flat_map exchange_turns xs)).
Proof.
  revert n. induction xs as [|[m r] xs IH]; intros n.
  - simpl. rewrite !drop_nil. reflexivity.
  - assert (H0 : history_messages (flat_map exchange_entries xs)
                 = Ok (flat_map exchange_turns xs)) by exact (IH 0%nat).
    assert (H1 : history_messages (RText ("AI: " +:+ r) :: flat_map exchange_entries xs)
                 = Ok (Message Assistant r :: flat_map exchange_turns xs)).
    { rewrite (history_messages_cons _ _ _ _ _ (split_ai_entry r) H0). reflexivity. }
    destruct n as [|[|n]].
    + change (drop 0 ?l) with l.
      change (flat_map exchange_entries ((m, r) :: xs))
        with (RText ("User: " +:+ m) :: RText ("AI: " +:+ r)
                :: flat_map exchange_entries xs).
      rewrite (history_messages_cons _ _ _ _ _ (split_user_entry m) H1). reflexivity.
    + exact H1.
    + exact (IH n).
Qed.

(** X4. What [update_chat_history] stores is read back by
    [enforce_english_response] as the same conversation: for a user who had
    no history, after any exchanges are appended on a working back end the
    stored entries parse, without error, into the last 10 turns of those
    exchanges, user and assistant alternating with their texts intact (also
    texts that contain ": "). *)
Theorem history_replays_as_context (user : string) (xs : list (string * string))
    (w : world) :
  faults w = [] ->
  lookup_key (clock w) (redis w) (history_key user) = None ->
  exists history,
    (get_chat_history user (append_exchanges user xs w)).1 = Ok history
    /\ history_messages history = Ok (lastn 10 (flat_map exchange_turns xs)).
Proof.
  intros Hf Habs.
  assert (Hlen : forall l : list (string * string),
            length (flat_map exchange_entries l) = length (flat_map exchange_turns l)).
  { induction l as [|a l IH]; [reflexivity|]. simpl. rewrite IH. reflexivity. }
  destruct xs as [|x xs].
  - exists []. split; [|reflexivity]. simpl.
    rewrite get_chat_history_reliable by exact Hf.
    rewrite stored_absent by exact Habs. reflexivity.
  - destruct (append_exchanges_stored user xs x w Hf) as (Hf' & Hc & Hst).
    eexists. split.
    + rewrite get_chat_history_reliable by exact Hf'. reflexivity.
    + rewrite Hc, Hst, stored_absent by exact Habs.
      rewrite app_nil_l. unfold lastn. rewrite Hlen.
      apply history_messages_exchanges.
Qed.

Lemma history_replays_as_context_witness :
  exists history,
    (get_chat_history "alice"
       (append_exchanges "alice" [("a: b", "c: d: e")] boot)).1 = Ok history
    /\ history_messages history
       = Ok (lastn 10 (flat_map exchange_turns [("a: b", "c: d: e")])).
Proof.
  apply (history_replays_as_context "alice" [("a: b", "c: d: e")] boot).
  - reflexivity.
  - reflexivity.
Defined.

(** ** Round trips with a given fate *)

Lemma execute_healthy_eq (cmds : list command) (w : world) (fs : list fault) :
  faults w = Healthy :: fs ->
  execute cmds w
  = (Ok (run_commands (clock w) cmds (redis w)).1,
     set_faults fs (set_redis (run_commands (clock w) cmds (redis w)).2 w)).
Proof.
  intros Hf. unfold execute. rewrite Hf.
  destruct (run_commands _ _ _) as [rs d]. reflexivity.
Qed.

Lemma execute_broken_eq (cmds : list command) (w : world) (k : nat) (fs : list fault) :
  faults w = Broken k :: fs ->
  execute cmds w
  = (Raise ConnectionError,
     set_faults fs (set_redis (run_commands (clock w) (take k cmds) (redis w)).2 w)).
Proof.
  intros Hf. unfold execute. rewrite Hf.
  destruct (run_commands _ _ _) as [rs d]. reflexivity.
Qed.

Lemma get_chat_history_healthy (user : string) (w : world) (fs : list fault) :
  faults w = Healthy :: fs ->
  get_chat_history user w
  = (Ok (stored (clock w) (redis w) (history_key user)), set_faults fs w).
Proof.
  intros Hf. unfold get_chat_history, bind, lift, ret.
  rewrite (execute_healthy_eq _ w fs Hf). simpl.
  rewrite slice_all, set_redis_same.
  destruct (stored _ _ _); reflexivity.
Qed.

Lemma get_chat_history_broken (user : string) (w : world) (k : nat) (fs : list fault) :
  faults w = Broken k :: fs ->
  get_chat_history user w = (Raise ConnectionError, set_faults fs w).
Proof.
  intros Hf. unfold get_chat_history, bind.
  rewrite (execute_broken_eq _ w k fs Hf).
  destruct k as [|k]; simpl; rewrite ?take_nil; simpl; rewrite set_redis_same; reflexivity.
Qed.

Section Conversation.

Variable chat_completion : list message -> outcome string.

#[local] Abbreviation enforce := (enforce_english_response chat_completion).

(* The request sent to the model for a given history *)
Lemma enforce_after_read (user user_input : string) (w w1 : world)
    (history : list rval) (turns : list message) :
  get_chat_history user w = (Ok history, w1) ->
  history_messages history = Ok turns ->
  enforce user user_input w
  = try_except
      (await assistant_response :=
         lift (chat_completion
                 ([Message System "Respond in English and retain conversation context."]
                    ++ turns ++ [Message User user_input])) in
       await _ := update_chat_history user user_input assistant_response in
       ret assistant_response)
      (fun e => await _ := logging_error "AI response error" e in ret FALLBACK) w1.
Proof.
  intros Hg Ht. unfold enforce_english_response, bind at 1. rewrite Hg.
  unfold bind at 1, lift at 1. rewrite Ht. reflexivity.
Qed.

(** X5. The history read of [enforce_english_response] is outside its
    [try]: when the read's round trip fails the call raises ConnectionError,
    and when a stored entry has no ": " separator it raises ValueError; in
    both cases no fallback message is returned, nothing is logged and Redis
    is unchanged. *)
Theorem enforce_read_errors_escape (user user_input : string) (w : world) :
  (forall k fs, faults w = Broken k :: fs ->
     (enforce user user_input w).1 = Raise ConnectionError)
  /\ (forall e, faults w = [] ->
        history_messages (stored (clock w) (redis w) (history_key user)) = Raise e ->
        (enforce user user_input w).1 = Raise e)
  /\ ((exists e, (enforce user user_input w).1 = Raise e) ->
      redis (enforce user user_input w).2 = redis w
      /\ error_log (enforce user user_input w).2 = error_log w).
Proof.
  split; [|split].
  - intros k fs Hf. unfold enforce_english_response, bind at 1.
    rewrite (get_chat_history_broken user w k fs Hf). reflexivity.
  - intros e Hf He. unfold enforce_english_response, bind at 1.
    rewrite (get_chat_history_reliable user w Hf).
    unfold bind at 1, lift at 1. rewrite He. reflexivity.
  - intros [e He].
    assert (Hr : redis (get_chat_history user w).2 = redis w
                 /\ error_log (get_chat_history user w).2 = error_log w).
    { unfold get_chat_history, bind, lift, ret, execute.
      destruct (faults w) as [|[|[|n]] fs]; simpl; rewrite ?take_nil; simpl;
        rewrite ?slice_all; try destruct (stored _ _ _); split; reflexivity. }
    destruct (get_chat_history user w) as [[history|e0] w1] eqn:Hg; simpl in Hr.
    + destruct (history_messages history) as [turns|e1] eqn:Ht.
      * exfalso. revert He.
        rewrite (enforce_after_read user user_input w w1 history turns Hg Ht).
        unfold try_except.
        match goal with |- context [bind ?m ?k w1] =>
          destruct (bind m k w1) as [[a|e2] w2]
        end; discriminate.
      * assert (E : enforce user user_input w = (Raise e1, w1)).
        { unfold enforce_english_response, bind at 1. rewrite Hg.
          unfold bind at 1, lift at 1. rewrite Ht. reflexivity. }
        rewrite E. exact Hr.
    + assert (E : enforce user user_input w = (Raise e0, w1)).
      { unfold enforce_english_response, bind at 1. rewrite Hg. reflexivity. }
      rewrite E. exact Hr.
Qed.

End Conversation.

Lemma enforce_read_errors_escape_witness :
  (enforce_english_response model_echo "alice" "hello"
     (set_faults [Broken 0] boot)).1 = Raise ConnectionError.
Proof.
  exact (proj1 (enforce_read_errors_escape model_echo "alice" "hello" (set_faults [Broken 0] boot))
           0%nat [] eq_refl).
Defined.

Section ConversationWrites.

Variable chat_completion : list message -> outcome string.

#[local] Abbreviation enforce := (enforce_english_response chat_completion).

Lemma lastn_lastn {A} (n : nat) (l : list A) : lastn n (lastn n l) = lastn n l.
Proof.
  pose proof (lastn_app_lastn n l []) as H. rewrite !app_nil_r in H. exact H.
Qed.

Lemma update_push_broken (user m r : string) (w : world) (k : nat) (fs : list fault) :
  faults w = Broken k :: fs ->
  exists w2,
    update_chat_history user m r w = (Raise ConnectionError, w2)
    /\ error_log w2 = error_log w.
Proof.
  intros Hf. unfold update_chat_history, bind at 1.
  rewrite (execute_broken_eq _ w k fs Hf). eexists. split; reflexivity.
Qed.

Lemma update_trim_broken (user m r : string) (w : world) (k : nat) (fs : list fault) :
  faults w = Healthy :: Broken k :: fs ->
  exists w2,
    update_chat_history user m r w = (Raise ConnectionError, w2)
    /\ error_log w2 = error_log w
    /\ lastn 10 (stored (clock w) (redis w2) (history_key user))
       = lastn 10 (stored (clock w) (redis w) (history_key user)
                   ++ exchange_entries (m, r)).
Proof.
  intros Hf. unfold update_chat_history, bind at 1.
  rewrite (execute_healthy_eq _ w _ Hf). unfold bind at 1.
  match goal with |- context [execute ?c ?w1] =>
    rewrite (execute_broken_eq c w1 k fs eq_refl)
  end.
  eexists. split; [reflexivity|]. split; [reflexivity|].
  simpl redis. simpl clock.
  destruct k as [|k]; simpl take; rewrite ?take_nil; simpl run_commands; cbn [fst snd].
  - rewrite stored_write_key. reflexivity.
  - rewrite !stored_write_key. rewrite (slice_last 10) by lia.
    apply lastn_lastn.
Qed.

Lemma enforce_write_raises (user user_input reply : string) (w w1 w2 : world)
    (history : list rval) (turns : list message) (e : exn) :
  get_chat_history user w = (Ok history, w1) ->
  history_messages history = Ok turns ->
  chat_completion
    ([Message System "Respond in English and retain conversation context."]
       ++ turns ++ [Message User user_input]) = Ok reply ->
  update_chat_history user user_input reply w1 = (Raise e, w2) ->
  enforce user user_input w
  = (Ok FALLBACK, set_error_log (error_log w2 ++ [("AI response error", e)]) w2).
Proof.
  intros Hg Ht Hc Hu.
  rewrite (enforce_after_read chat_completion user user_input w w1 history turns Hg Ht).
  unfold try_except, bind at 1 2, lift. rewrite Hc, Hu. reflexivity.
Qed.

(** X6. [update_chat_history] runs inside the [try] of
    [enforce_english_response]: when the model has answered and one of the
    two history writes then fails, the caller gets the fallback message, not
    the answer, and the failure is logged; when it is the trim that fails the
    exchange is in the stored history all the same. *)
Theorem reply_lost_when_write_fails (user user_input reply : string) (w : world)
    (turns : list message) (k : nat) (fs : list fault) :
  history_messages (stored (clock w) (redis w) (history_key user)) = Ok turns ->
  chat_completion
    ([Message System "Respond in English and retain conversation context."]
       ++ turns ++ [Message User user_input]) = Ok reply ->
  faults w = Healthy :: Broken k :: fs
  \/ faults w = Healthy :: Healthy :: Broken k :: fs ->
  let w' := (enforce user user_input w).2 in
  (enforce user user_input w).1 = Ok FALLBACK
  /\ error_log w' = error_log w ++ [("AI response error", ConnectionError)]
  /\ (faults w = Healthy :: Healthy :: Broken k :: fs ->
      lastn 10 (stored (clock w) (redis w') (history_key user))
      = lastn 10 (stored (clock w) (redis w) (history_key user)
                  ++ exchange_entries (user_input, reply))).
Proof.
  intros Ht Hc Hf w'. subst w'.
  destruct Hf as [Hf|Hf].
  - pose proof (get_chat_history_healthy user w _ Hf) as Hg.
    destruct (update_push_broken user user_input reply
                (set_faults (Broken k :: fs) w) k fs eq_refl) as (w2 & Hu & Hl).
    rewrite (enforce_write_raises _ _ _ _ _ _ _ _ _ Hg Ht Hc Hu). simpl.
    rewrite Hl. split; [reflexivity|]. split; [reflexivity|].
    intros Hf'. rewrite Hf in Hf'. discriminate Hf'.
  - pose proof (get_chat_history_healthy user w _ Hf) as Hg.
    destruct (update_trim_broken user user_input reply
                (set_faults (Healthy :: Broken k :: fs) w) k fs eq_refl)
      as (w2 & Hu & Hl & Hs).
    rewrite (enforce_write_raises _ _ _ _ _ _ _ _ _ Hg Ht Hc Hu). simpl.
    rewrite Hl. split; [reflexivity|]. split; [reflexivity|].
    intros _. exact Hs.
Qed.

End ConversationWrites.

Lemma reply_lost_when_write_fails_witness :
  let w := set_faults [Healthy; Healthy; Broken 0] boot in
  (enforce_english_response model_echo "alice" "hello" w).1 = Ok FALLBACK
  /\ stored 0%Q (redis (enforce_english_response model_echo "alice" "hello" w).2)
       (history_key "alice")
     = [RText "User: hello"; RText "AI: ok"].
Proof.
  intros w.
  destruct (reply_lost_when_write_fails model_echo "alice" "hello" "ok" w [] 0%nat []
              eq_refl eq_refl (or_intror eq_refl)) as (H1 & _ & H3).
  split; [exact H1|]. exact (H3 eq_refl).
Defined.

(** ** The route, end to end *)

Lemma rate_limited_read_broken (user : string) (w : world) (k : nat) (fs : list fault) :
  faults w = Broken k :: fs ->
  rate_limited user w
  = (Ok false,
     set_error_log (error_log w ++ [("Rate limiting error", ConnectionError)])
       (set_faults fs w)).
Proof.
  intros Hf. unfold rate_limited, bind at 1, time_time, try_except, bind at 1.
  rewrite (execute_broken_eq _ w k fs Hf).
  destruct k as [|k]; simpl; rewrite ?take_nil; simpl; rewrite set_redis_same;
    reflexivity.
Qed.

Section Route.

Variable http_get : Q -> string -> http_result.
Variable str_of_price : Q -> string.
Variable chat_completion : list message -> outcome string.

#[local] Abbreviation fetch := (fetch_crypto_price http_get str_of_price).
#[local] Abbreviation enforce := (enforce_english_response chat_completion).
#[local] Abbreviation agent := (ai_agent http_get str_of_price chat_completion).

Lemma agent_rejected (data : request_json) (uid act : string) (w w1 : world) :
  action_lower data = Ok act ->
  user_id data = Some uid -> uid <> EmptyString ->
  rate_limited uid w = (Ok false, w1) ->
  agent data w = (Ok (HttpReply "Rate limit exceeded." 429), w1).
Proof.
  intros Ha Hu Hne Hr.
  rewrite (agent_with_action http_get str_of_price chat_completion data act w Ha).
  rewrite Hu. destruct uid as [|c uid]; [congruence|].
  unfold bind at 1. rewrite Hr. reflexivity.
Qed.

(** X7. When Redis cannot be reached (the limiter's read raises), every
    request that carries a user id and whose action is a string, or is
    missing, is answered 429 "Rate limit exceeded.", whatever the text of
    the action: no price is looked up, no model is called, Redis is unchanged
    and the failure is logged. *)
Theorem redis_down_gives_429 (data : request_json) (uid act : string) (w : world)
    (k : nat) (fs : list fault) :
  action_lower data = Ok act ->
  user_id data = Some uid -> uid <> EmptyString ->
  faults w = Broken k :: fs ->
  let w' := (agent data w).2 in
  (agent data w).1 = Ok (HttpReply "Rate limit exceeded." 429)
  /\ redis w' = redis w
  /\ memory_cache w' = memory_cache w
  /\ http_log w' = http_log w
  /\ error_log w' = error_log w ++ [("Rate limiting error", ConnectionError)].
Proof.
  intros Ha Hu Hne Hf w'. subst w'.
  rewrite (agent_rejected data uid act w _ Ha Hu Hne
             (rate_limited_read_broken uid w k fs Hf)).
  repeat split.
Qed.

(** X8. On a working back end, a request of a user who already has
    REQUEST_LIMIT time stamps inside the window, and whose action is a
    string or is missing, is answered 429 "Rate limit exceeded." whatever
    the text of the action, and nothing at all is changed: no history, no
    cache entry, no upstream request, no log record. *)
Theorem over_limit_gives_429 (data : request_json) (uid act : string) (w : world)
    (times : list Q) :
  action_lower data = Ok act ->
  user_id data = Some uid -> uid <> EmptyString ->
  faults w = [] ->
  stored (clock w) (redis w) (rate_limit_key uid) = map RNum times ->
  (REQUEST_LIMIT <= length (List.filter (fresh (clock w)) times))%nat ->
  agent data w = (Ok (HttpReply "Rate limit exceeded." 429), w).
Proof.
  intros Ha Hu Hne Hf Hs Hn.
  exact (agent_rejected data uid act w w Ha Hu Hne
           (rate_limited_reject uid w times Hf Hs Hn)).
Qed.

(** X9. A request whose action contains "price" never ends in an unhandled
    exception, whatever the back end, the upstream and the model do: the
    route answers 400 (no user id, nothing changed), 429 or 200. *)
Theorem price_request_never_raises (data : request_json) (act : string) (w : world) :
  action_lower data = Ok act ->
  PyStr.contains "price" act = true ->
  exists reply,
    (agent data w).1 = Ok reply
    /\ ((reply = HttpReply "Missing user_id." 400 /\ (agent data w).2 = w)
        \/ reply = HttpReply "Rate limit exceeded." 429
        \/ status_code reply = 200%Z).
Proof.
  intros Ha Hp.
  destruct (user_id data) as [uid|] eqn:Hu.
  - destruct (decide (uid = EmptyString)) as [->|Hne].
    + rewrite (agent_with_action http_get str_of_price chat_completion data act w Ha).
      rewrite Hu. eexists. split; [reflexivity|]. left. split; reflexivity.
    + destruct (rate_limited_frame uid w) as (b & wr & Hr & _).
      destruct b.
      * rewrite (agent_allowed http_get str_of_price chat_completion data uid act
                   w wr Ha Hu Hne Hr).
        rewrite Hp. unfold bind.
        destruct (fetch_cases http_get str_of_price
                    (PyStr.strip (PyStr.replace "price of" "" act)) wr)
          as [(v & ->)|(v & w1 & -> & _)];
          (eexists; split; [reflexivity|]; right; right; reflexivity).
      * rewrite (agent_rejected data uid act w wr Ha Hu Hne Hr).
        eexists. split; [reflexivity|]. right. left. reflexivity.
  - rewrite (agent_with_action http_get str_of_price chat_completion data act w Ha).
    rewrite Hu. eexists. split; [reflexivity|]. left. split; reflexivity.
Qed.

(** X16. The action is lower-cased before anything is checked: a request
    whose "action" is present and is not a string (null, a number, a
    boolean, an array or an object) raises AttributeError, also when the
    user id is missing, Redis is down or the user is over the limit, and
    nothing has been read or written. *)
Theorem non_string_action_raises (data : request_json) (v : json_value) (w : world) :
  action data = Some v ->
  (forall s, v <> JStr s) ->
  agent data w = (Raise AttributeError, w).
Proof.
  intros Hv Hns. apply agent_action_error.
  unfold action_lower. rewrite Hv. simpl.
  destruct v as [| | |s|]; try reflexivity. exfalso. exact (Hns s eq_refl).
Qed.

End Route.

Lemma redis_down_gives_429_witness :
  (ai_agent coingecko_up show_price model_echo lower_request offline).1
  = Ok (HttpReply "Rate limit exceeded." 429).
Proof.
  exact (proj1 (redis_down_gives_429 coingecko_up show_price model_echo lower_request
                  "alice" "price of btc" offline 0%nat [] eq_refl eq_refl
                  ltac:(discriminate) eq_refl)).
Defined.

Lemma over_limit_gives_429_witness :
  ai_agent coingecko_up show_price model_echo lower_request five_calls_then_ten
  = (Ok (HttpReply "Rate limit exceeded." 429), five_calls_then_ten).
Proof.
  apply (over_limit_gives_429 coingecko_up show_price model_echo lower_request
           "alice" "price of btc" five_calls_then_ten [0; 0; 0; 0; 0]%Q).
  - reflexivity.
  - reflexivity.
  - discriminate.
  - reflexivity.
  - reflexivity.
  - vm_compute. lia.
Defined.

Lemma price_request_never_raises_witness :
  exists reply,
    (ai_agent coingecko_down show_price model_down lower_request offline).1 = Ok reply
    /\ ((reply = HttpReply "Missing user_id." 400
         /\ (ai_agent coingecko_down show_price model_down lower_request offline).2
            = offline)
        \/ reply = HttpReply "Rate limit exceeded." 429
        \/ status_code reply = 200%Z).
Proof.
  apply (price_request_never_raises coingecko_down show_price model_down
           lower_request "price of btc" offline).
  - reflexivity.
  - reflexivity.
Defined.

Section ConversationRoute.

Variable http_get : Q -> string -> http_result.
Variable str_of_price : Q -> string.
Variable chat_completion : list message -> outcome string.

#[local] Abbreviation enforce := (enforce_english_response chat_completion).
#[local] Abbreviation agent := (ai_agent http_get str_of_price chat_completion).

(* An accepted call: the new window, and every history as it was. *)
Lemma accept_world (uid : string) (w : world) (times : list Q) :
  faults w = [] ->
  stored (clock w) (redis w) (rate_limit_key uid) = map RNum times ->
  (length (List.filter (fresh (clock w)) times) < REQUEST_LIMIT)%nat ->
  exists d',
    rate_limited uid w = (Ok true, set_redis d' w)
    /\ stored (clock w) d' (rate_limit_key uid)
       = map RNum (lastn REQUEST_LIMIT (times ++ [clock w]))
    /\ forall u t, stored t d' (history_key u) = stored t (redis w) (history_key u).
Proof.
  intros Hf Hs Hn.
  destruct (rate_limited_accept uid w times Hf Hs Hn) as (d' & Hr & Hl & He).
  exists d'. split; [exact Hr|]. split.
  - rewrite (stored_at _ _ _ _ _ Hl He), deadline_ahead. reflexivity.
  - intros u t.
    pose proof (rate_limited_untouched uid (history_key u)
                  (rate_limit_key_not_history uid u) w) as Hu.
    rewrite Hr in Hu. exact (untouched_stored _ _ _ t Hu).
Qed.

(* A served exchange: the reply, the new history, the other keys as they were. *)
Lemma enforce_served (user user_input reply : string) (w : world)
    (turns : list message) :
  faults w = [] ->
  history_messages (stored (clock w) (redis w) (history_key user)) = Ok turns ->
  chat_completion
    ([Message System "Respond in English and retain conversation context."]
       ++ turns ++ [Message User user_input]) = Ok reply ->
  exists d2,
    enforce user user_input w = (Ok reply, set_redis d2 w)
    /\ stored (clock w) d2 (history_key user)
       = lastn 10 (stored (clock w) (redis w) (history_key user)
                   ++ exchange_entries (user_input, reply))
    /\ forall u t, stored t d2 (rate_limit_key u) = stored t (redis w) (rate_limit_key u).
Proof.
  intros Hf Ht Hc.
  destruct (update_chat_history_reliable user user_input reply w Hf) as (d2 & Hu & Hs).
  exists d2. split; [|split].
  - rewrite (enforce_after_read chat_completion user user_input w w _ turns
               (get_chat_history_reliable user w Hf) Ht).
    unfold try_except, bind at 1 2, lift. rewrite Hc, Hu. reflexivity.
  - exact Hs.
  - intros u t.
    assert (Hne : history_key user <> rate_limit_key u)
      by (intros H; symmetry in H; exact (rate_limit_key_not_history _ _ H)).
    pose proof (update_chat_history_untouched user user_input reply _ Hne w) as Hk.
    rewrite Hu in Hk. exact (untouched_stored _ _ _ t Hk).
Qed.

(** X10. A conversation request served end to end: on a working back end,
    for a user below the limit whose stored history parses, when the model
    answers the route replies 200 with the model's answer, the user's window
    gains the time of the request, and the user's history is the last 10 of
    the old entries followed by "User: <text>" and "AI: <answer>". *)
Theorem conversation_request_served (data : request_json) (uid act reply : string)
    (w : world) (times : list Q) (turns : list message) :
  action_lower data = Ok act ->
  user_id data = Some uid -> uid <> EmptyString ->
  PyStr.contains "price" act = false ->
  faults w = [] ->
  stored (clock w) (redis w) (rate_limit_key uid) = map RNum times ->
  (length (List.filter (fresh (clock w)) times) < REQUEST_LIMIT)%nat ->
  history_messages (stored (clock w) (redis w) (history_key uid)) = Ok turns ->
  chat_completion
    ([Message System "Respond in English and retain conversation context."]
       ++ turns ++ [Message User (default "" (text data))]) = Ok reply ->
  let w' := (agent data w).2 in
  (agent data w).1 = Ok (HttpReply reply 200)
  /\ stored (clock w) (redis w') (rate_limit_key uid)
     = map RNum (lastn REQUEST_LIMIT (times ++ [clock w]))
  /\ stored (clock w) (redis w') (history_key uid)
     = lastn 10 (stored (clock w) (redis w) (history_key uid)
                 ++ [RText ("User: " +:+ default "" (text data));
                     RText ("AI: " +:+ reply)]).
Proof.
  intros Ha Hu Hne Hp Hf Hs Hn Ht Hc w'. subst w'.
  destruct (accept_world uid w times Hf Hs Hn) as (d1 & Hr & Hw & Hh).
  rewrite (agent_allowed http_get str_of_price chat_completion data uid act w _
             Ha Hu Hne Hr).
  rewrite Hp.
  destruct (enforce_served uid (default "" (text data)) reply (set_redis d1 w) turns)
    as (d2 & He & Hh2 & Hw2).
  { exact Hf. }
  { simpl. rewrite Hh. exact Ht. }
  { exact Hc. }
  unfold bind. rewrite He. simpl in *.
  split; [reflexivity|]. split.
  - rewrite Hw2. exact Hw.
  - rewrite Hh2, Hh. reflexivity.
Qed.

(** X11. A request is charged before the model is called: on a working back
    end, for a user below the limit, when the model call fails the route
    still replies with status 200, carrying the fallback message; the user's
    window has gained the time of the request, the history is unchanged and
    the failure is logged. *)
Theorem failed_model_request_is_charged (data : request_json) (uid act : string)
    (w : world) (times : list Q) (turns : list message) (e : exn) :
  action_lower data = Ok act ->
  user_id data = Some uid -> uid <> EmptyString ->
  PyStr.contains "price" act = false ->
  faults w = [] ->
  stored (clock w) (redis w) (rate_limit_key uid) = map RNum times ->
  (length (List.filter (fresh (clock w)) times) < REQUEST_LIMIT)%nat ->
  history_messages (stored (clock w) (redis w) (history_key uid)) = Ok turns ->
  chat_completion
    ([Message System "Respond in English and retain conversation context."]
       ++ turns ++ [Message User (default "" (text data))]) = Raise e ->
  let w' := (agent data w).2 in
  (agent data w).1 = Ok (HttpReply FALLBACK 200)
  /\ stored (clock w) (redis w') (rate_limit_key uid)
     = map RNum (lastn REQUEST_LIMIT (times ++ [clock w]))
  /\ (forall t, stored t (redis w') (history_key uid)
               = stored t (redis w) (history_key uid))
  /\ error_log w' = error_log w ++ [("AI response error", e)].
Proof.
  intros Ha Hu Hne Hp Hf Hs Hn Ht Hc w'. subst w'.
  destruct (accept_world uid w times Hf Hs Hn) as (d1 & Hr & Hw & Hh).
  rewrite (agent_allowed http_get str_of_price chat_completion data uid act w _
             Ha Hu Hne Hr).
  rewrite Hp.
  assert (He : enforce uid (default "" (text data)) (set_redis d1 w)
               = (Ok FALLBACK,
                  set_error_log (error_log w ++ [("AI response error", e)])
                    (set_redis d1 w))).
  { assert (Ht1 : history_messages
                    (stored (clock (set_redis d1 w)) (redis (set_redis d1 w))
                       (history_key uid)) = Ok turns)
      by (simpl; rewrite Hh; exact Ht).
    rewrite (enforce_after_read chat_completion uid _ (set_redis d1 w) _ _ turns
               (get_chat_history_reliable uid (set_redis d1 w) Hf) Ht1).
    unfold try_except, bind at 1, lift. rewrite Hc. reflexivity. }
  unfold bind. rewrite He. simpl.
  split; [reflexivity|]. split; [exact Hw|]. split; [exact (Hh uid) | reflexivity].
Qed.

End ConversationRoute.

Lemma conversation_request_served_witness :
  (ai_agent coingecko_up show_price model_echo chat_request boot).1
  = Ok (HttpReply "ok" 200)
  /\ stored 0%Q (redis (ai_agent coingecko_up show_price model_echo chat_request boot).2)
       (history_key "alice")
     = [RText "User: bonjour"; RText "AI: ok"].
Proof.
  destruct (conversation_request_served coingecko_up show_price model_echo
              chat_request "alice" "translate" "ok" boot [] [])
    as (H1 & _ & H3); try reflexivity.
  - discriminate.
  - vm_compute. lia.
  - split; [exact H1 | exact H3].
Defined.

Lemma failed_model_request_is_charged_witness :
  (ai_agent coingecko_up show_price model_down chat_request boot).1
  = Ok (HttpReply FALLBACK 200)
  /\ stored 0%Q (redis (ai_agent coingecko_up show_price model_down chat_request boot).2)
       (rate_limit_key "alice")
     = [RNum 0%Q].
Proof.
  destruct (failed_model_request_is_charged coingecko_up show_price model_down
              chat_request "alice" "translate" boot [] [] ModelError)
    as (H1 & H2 & _); try reflexivity.
  - discriminate.
  - vm_compute. lia.
  - split; [exact H1 | exact H2].
Defined.

(** ** The lookup key of a "price of ..." request *)

Lemma lower_append (a b : string) :
  PyStr.lower (a +:+ b) = PyStr.lower a +:+ PyStr.lower b.
Proof.
  induction a as [|c a IH]; [reflexivity|].
  rewrite append_cons. cbn [PyStr.lower]. rewrite append_cons, IH. reflexivity.
Qed.

Lemma replace_no_match (s : string) :
  PyStr.contains "price of" s = false -> PyStr.replace "price of" "" s = s.
Proof.
  induction s as [|c s IH]; [reflexivity|].
  rewrite contains_unfold. intros H. apply orb_false_iff in H. destruct H as [Hp Hc].
  rewrite (replace_price_of_step c s Hp), (IH Hc). reflexivity.
Qed.

Section PriceOf.

Variable http_get : Q -> string -> http_result.
Variable str_of_price : Q -> string.
Variable chat_completion : list message -> outcome string.

#[local] Abbreviation fetch := (fetch_crypto_price http_get str_of_price).
#[local] Abbreviation agent := (ai_agent http_get str_of_price chat_completion).

(** X12. For an accepted request whose action is "price of " (in any letter
    case) followed by a name that does not itself contain "price of", the
    price lookup is called with the name lower-cased and stripped of
    surrounding white space. *)
Theorem price_of_key (data : request_json) (uid p name : string) (w w1 : world) :
  user_id data = Some uid -> uid <> EmptyString ->
  rate_limited uid w = (Ok true, w1) ->
  action data = Some (JStr (p +:+ name)) ->
  PyStr.lower p = "price of " ->
  PyStr.contains "price of" (PyStr.lower name) = false ->
  agent data w
  = (await r := fetch (PyStr.strip (PyStr.lower name)) in ret (HttpReply r 200)) w1.
Proof.
  intros Hu Hne Hr Ha Hp Hn.
  assert (Hact : action_lower data = Ok ("price of " +:+ PyStr.lower name)).
  { unfold action_lower. rewrite Ha. simpl. rewrite lower_append, Hp. reflexivity. }
  rewrite (agent_allowed http_get str_of_price chat_completion data uid _ w w1
             Hact Hu Hne Hr).
  assert (Hin : PyStr.contains "price" ("price of " +:+ PyStr.lower name) = true).
  { apply contains_spec. exists EmptyString, (" of " +:+ PyStr.lower name). reflexivity. }
  rewrite Hin.
  change ("price of " +:+ PyStr.lower name)
    with ("price of" +:+ String " " (PyStr.lower name)).
  rewrite replace_price_of_head.
  rewrite replace_no_match.
  - reflexivity.
  - rewrite contains_unfold. rewrite Hn. reflexivity.
Qed.

End PriceOf.

Lemma price_of_key_witness :
  ai_agent coingecko_up show_price model_echo bitcoin_request boot
  = (await r := fetch_crypto_price coingecko_up show_price "bitcoin" in
     ret (HttpReply r 200)) (rate_limited "alice" boot).2.
Proof.
  apply (price_of_key coingecko_up show_price model_echo bitcoin_request
           "alice" "Price Of " " Bitcoin " boot (rate_limited "alice" boot).2).
  - reflexivity.
  - discriminate.
  - vm_compute. reflexivity.
  - reflexivity.
  - reflexivity.
  - reflexivity.
Defined.

(** ** The limiter is a sliding-window log *)

Lemma fresh_false (t a : Q) : fresh t a = false <-> stale t a.
Proof.
  unfold fresh, stale. rewrite Qltb_false. unfold TIME_FRAME. split; intros H; lra.
Qed.

Lemma stale_later (t0 t a : Q) : (t0 <= t)%Q -> stale t0 a -> stale t a.
Proof. unfold stale. intros H1 H2. lra. Qed.

Lemma filter_stale (t : Q) (l : list Q) :
  Forall (stale t) l -> List.filter (fresh t) l = [].
Proof.
  induction 1 as [|a l Ha _ IH]; [reflexivity|].
  simpl. apply fresh_false in Ha. rewrite Ha. exact IH.
Qed.

Lemma filter_short (f : Q -> bool) (l : list Q) :
  (length (List.filter f l) < length l)%nat -> exists x, x ∈ l /\ f x = false.
Proof.
  induction l as [|a l IH]; simpl; [lia|].
  destruct (f a) eqn:Ha; simpl; intros H.
  - destruct IH as (x & Hx & Hfx); [lia|]. exists x. split; [by right | exact Hfx].
  - exists a. split; [by left | exact Ha].
Qed.

Lemma stored_none (t : Q) (d : db) (key : string) :
  lists d !! key = None -> stored t d key = [].
Proof.
  intros H. unfold stored, lookup_key. destruct (expired t d key); [reflexivity|].
  rewrite H. reflexivity.
Qed.

(* Counting inside the kept suffix decides as counting inside the whole log. *)
Lemma count_kept (t : Q) (older kept : list Q) :
  StronglySorted Qle (older ++ kept) ->
  (length kept <= REQUEST_LIMIT)%nat ->
  length kept = REQUEST_LIMIT \/ Forall (stale t) older ->
  (length (List.filter (fresh t) (older ++ kept)) <? REQUEST_LIMIT)%nat
  = (length (List.filter (fresh t) kept) <? REQUEST_LIMIT)%nat.
Proof.
  intros Hso Hlen Hcase. rewrite List.filter_app, length_app.
  assert (Hold : Forall (stale t) older
                 \/ length (List.filter (fresh t) kept) = REQUEST_LIMIT).
  { destruct Hcase as [Hfull|Hst]; [|left; exact Hst].
    destruct (decide (length (List.filter (fresh t) kept) = REQUEST_LIMIT))
      as [Heq|Hne]; [right; exact Heq|].
    left.
    assert (Hle : (length (List.filter (fresh t) kept) <= length kept)%nat)
      by apply List.filter_length_le.
    destruct (filter_short (fresh t) kept) as (s & Hs & Hfs); [lia|].
    apply fresh_false in Hfs.
    apply Forall_forall. intros p Hp.
    pose proof (StronglySorted_app_1_elem_of Qle older kept p s Hso Hp Hs) as Hps.
    unfold stale in *. lra. }
  destruct Hold as [Hst|Heq].
  - rewrite (filter_stale t older Hst). reflexivity.
  - rewrite Heq.
    destruct (Nat.ltb_spec (length (List.filter (fresh t) older) + REQUEST_LIMIT)
                REQUEST_LIMIT); [lia|].
    destruct (Nat.ltb_spec REQUEST_LIMIT REQUEST_LIMIT); [lia | reflexivity].
Qed.

Lemma window_after_accept (user : string) (w : world) (t : Q)
    (log older kept : list Q) :
  faults w = [] ->
  stored t (redis w) (rate_limit_key user) = map RNum kept ->
  (length (List.filter (fresh t) kept) < REQUEST_LIMIT)%nat ->
  log = older ++ kept ->
  Forall (fun a => (a <= t)%Q) log ->
  StronglySorted Qle log ->
  (length kept <= REQUEST_LIMIT)%nat ->
  length kept = REQUEST_LIMIT \/ Forall (stale t) older ->
  exists w1,
    rate_limited user (set_clock t w) = (Ok true, w1)
    /\ window_tracks user w1 (log ++ [t]) t.
Proof.
  intros Hf Hs Hn Hlog Hle Hso Hlen Hcase.
  destruct (rate_limited_accept user (set_clock t w) kept Hf Hs Hn)
    as (d' & Hr & Hl & He).
  simpl clock in Hl, He.
  exists (set_redis d' (set_clock t w)). split; [exact Hr|].
  split; [exact Hf|]. split; [|split].
  - apply Forall_app. split; [exact Hle|]. constructor; [apply Qle_refl | constructor].
  - apply StronglySorted_app_2.
    + intros x1 x2 H1 H2. apply list_elem_of_singleton in H2. subst x2.
      rewrite Forall_forall in Hle. exact (Hle x1 H1).
    + exact Hso.
    + constructor; [constructor | constructor].
  - right. simpl redis.
    set (n := (length (kept ++ [t]) - REQUEST_LIMIT)%nat).
    exists (older ++ take n (kept ++ [t])), (drop n (kept ++ [t])), (t + TIME_FRAME)%Q.
    split; [|split; [|split; [|split; [|split]]]].
    + rewrite Hlog, <- !app_assoc. f_equal. symmetry. apply take_drop.
    + exact Hl.
    + exact He.
    + apply Forall_app. split.
      * eapply Forall_impl; [exact Hle|]. intros a Ha. unfold stale. simpl in Ha. lra.
      * constructor; [unfold stale; lra | constructor].
    + apply (lastn_length REQUEST_LIMIT (kept ++ [t])).
    + subst n. rewrite length_drop, length_app. simpl length.
      destruct Hcase as [Hfull|Hst].
      * left. rewrite Hfull. unfold REQUEST_LIMIT. lia.
      * destruct (decide (length kept = REQUEST_LIMIT)) as [Hfull|Hnot].
        -- left. rewrite Hfull. unfold REQUEST_LIMIT. lia.
        -- right. replace (length kept + 1 - REQUEST_LIMIT)%nat with 0%nat by lia.
           rewrite take_0, app_nil_r. exact Hst.
Qed.

Lemma window_after_reject (user : string) (w : world) (t0 t : Q)
    (log kept : list Q) :
  window_tracks user w log t0 -> (t0 <= t)%Q ->
  stored t (redis w) (rate_limit_key user) = map RNum kept ->
  (REQUEST_LIMIT <= length (List.filter (fresh t) kept))%nat ->
  rate_limited user (set_clock t w) = (Ok false, set_clock t w)
  /\ window_tracks user (set_clock t w) log t.
Proof.
  intros (Hf & Hle & Hso & Hst) Ht Hs Hn.
  split; [exact (rate_limited_reject user (set_clock t w) kept Hf Hs Hn)|].
  split; [exact Hf|]. split; [|split; [exact Hso|]].
  - eapply Forall_impl; [exact Hle|]. intros a Ha. simpl in Ha. lra.
  - destruct Hst as [Hnone|(older & kept' & dl & H1 & H2 & H3 & H4 & H5 & H6)].
    + left. exact Hnone.
    + right. exists older, kept', dl. repeat (split; [assumption|]).
      destruct H6 as [H6|H6]; [left; exact H6|].
      right. eapply Forall_impl; [exact H6|]. intros a. apply stale_later. exact Ht.
Qed.

(* One call, from a tracked state, decides as the reference does. *)
Lemma window_step (user : string) (w : world) (log : list Q) (t0 t : Q) :
  window_tracks user w log t0 -> (t0 <= t)%Q ->
  exists w1,
    rate_limited user (set_clock t w)
    = (Ok (length (List.filter (fresh t) log) <? REQUEST_LIMIT)%nat, w1)
    /\ window_tracks user w1
         (if (length (List.filter (fresh t) log) <? REQUEST_LIMIT)%nat
          then log ++ [t] else log) t.
Proof.
  intros Htr Ht. pose proof Htr as (Hf & Hle & Hso & Hst).
  assert (Hle' : Forall (fun a => (a <= t)%Q) log).
  { eapply Forall_impl; [exact Hle|]. intros a Ha. simpl in Ha. lra. }
  destruct Hst as [[Hnone ->]|(older & kept & dl & Hlog & Hl & He & Hdl & Hlen & Hcase)].
  - (* nothing stored yet *)
    simpl.
    destruct (window_after_accept user w t [] [] [] Hf) as (w1 & Hr & Htr1);
      try (constructor; fail); try reflexivity.
    + apply stored_none. exact Hnone.
    + simpl. unfold REQUEST_LIMIT. lia.
    + simpl. unfold REQUEST_LIMIT. lia.
    + right. constructor.
    + exists w1. split; assumption.
  - destruct (Qle_bool dl t) eqn:Hexp.
    + (* the key has expired: the whole log is stale *)
      apply Qle_bool_iff in Hexp.
      assert (Hall : Forall (stale t) log).
      { eapply Forall_impl; [exact Hdl|]. intros a Ha. unfold stale in *. lra. }
      rewrite (filter_stale t log Hall). simpl.
      destruct (window_after_accept user w t log log [] Hf) as (w1 & Hr & Htr1).
      * rewrite (stored_at t _ _ _ _ Hl He).
        apply Qle_bool_iff in Hexp. rewrite Hexp. reflexivity.
      * simpl. unfold REQUEST_LIMIT. lia.
      * rewrite app_nil_r. reflexivity.
      * exact Hle'.
      * exact Hso.
      * simpl. unfold REQUEST_LIMIT. lia.
      * right. exact Hall.
      * exists w1. split; assumption.
    + (* the key is live: Redis shows the kept suffix *)
      assert (Hs : stored t (redis w) (rate_limit_key user) = map RNum kept)
        by (rewrite (stored_at t _ _ _ _ Hl He), Hexp; reflexivity).
      assert (Hcase' : length kept = REQUEST_LIMIT \/ Forall (stale t) older).
      { destruct Hcase as [H|H]; [left; exact H|].
        right. eapply Forall_impl; [exact H|]. intros a. apply stale_later. exact Ht. }
      subst log. rewrite (count_kept t older kept Hso Hlen Hcase').
      destruct (Nat.ltb_spec (length (List.filter (fresh t) kept)) REQUEST_LIMIT)
        as [Hn|Hn].
      * destruct (window_after_accept user w t (older ++ kept) older kept Hf Hs Hn
                    eq_refl Hle' Hso Hlen Hcase') as (w1 & Hr & Htr1).
        exists w1. split; assumption.
      * destruct (window_after_reject user w t0 t (older ++ kept) kept Htr Ht Hs Hn)
          as [Hr Htr1].
        exists (set_clock t w). split; assumption.
Qed.

Lemma limiter_calls_track (user : string) (times : list Q) :
  forall (w : world) (log : list Q) (t0 : Q),
    window_tracks user w log t0 ->
    Forall (Qle t0) times -> StronglySorted Qle times ->
    (limiter_calls user times w).1 = map Ok (sliding_window_log log times).
Proof.
  induction times as [|t times IH]; intros w log t0 Htr Hge Hso; [reflexivity|].
  apply Forall_cons in Hge. destruct Hge as [Ht _].
  apply StronglySorted_cons in Hso. destruct Hso as [Hge' Hso'].
  destruct (window_step user w log t0 t Htr Ht) as (w1 & Hr & Htr1).
  simpl limiter_calls. rewrite Hr.
  specialize (IH w1 _ t Htr1 Hge' Hso').
  destruct (limiter_calls user times w1) as [os w2]. simpl in IH |- *.
  rewrite IH. reflexivity.
Qed.

(** X13. For a user with nothing stored, on a working back end and with
    calls made at non-decreasing times, [rate_limited] decides every call as
    a sliding-window log would: a call is accepted exactly when fewer than
    REQUEST_LIMIT of the calls accepted before it are less than TIME_FRAME
    seconds old.  Trimming the stored list to REQUEST_LIMIT entries and the
    expiry of the key lose nothing. *)
Theorem limiter_is_sliding_window (user : string) (times : list Q) (w : world) :
  faults w = [] ->
  lists (redis w) !! rate_limit_key user = None ->
  StronglySorted Qle times ->
  (limiter_calls user times w).1 = map Ok (sliding_window_log [] times).
Proof.
  intros Hf Hnone Hso.
  destruct times as [|t times]; [reflexivity|].
  apply (limiter_calls_track user (t :: times) w [] t).
  - split; [exact Hf|]. split; [constructor|]. split; [constructor|].
    left. split; [exact Hnone | reflexivity].
  - constructor; [apply Qle_refl|].
    apply StronglySorted_cons in Hso. exact (proj1 Hso).
  - exact Hso.
Qed.

Lemma limiter_is_sliding_window_witness :
  (limiter_calls "alice" [0; 10; 20; 30; 40; 50; 59; 60; 69; 70; 200]%Q boot).1
  = map Ok (sliding_window_log [] [0; 10; 20; 30; 40; 50; 59; 60; 69; 70; 200]%Q).
Proof.
  apply (limiter_is_sliding_window "alice"
           [0; 10; 20; 30; 40; 50; 59; 60; 69; 70; 200]%Q boot).
  - reflexivity.
  - reflexivity.
  - repeat (constructor; [repeat constructor; discriminate|]). constructor.
Defined.

Lemma limiter_calls_bounded_witness :
  window_bounded "alice" (limiter_calls "alice" [0; 1; 2; 3; 4; 5; 70]%Q boot).2.
Proof.
  refine (proj2 (limiter_calls_bounded "alice" [0; 1; 2; 3; 4; 5; 70]%Q boot eq_refl _)).
  intros t. exists []. split; [reflexivity | unfold REQUEST_LIMIT; simpl; lia].
Defined.

Section CacheKeys.

Variable http_get : Q -> string -> http_result.
Variable str_of_price : Q -> string.

#[local] Abbreviation fetch := (fetch_crypto_price http_get str_of_price).

(** X15. Cache entries are independent: a lookup of one name, hit or miss,
    leaves the entry of every other name in place, so a later lookup of
    that other name before its deadline is still served from the cache,
    with no upstream request. *)
Theorem other_entries_survive (a b v : string) (deadline t : Q) (w : world) :
  a <> b ->
  memory_cache w !! b = Some (v, deadline) ->
  (t < deadline)%Q ->
  let w1 := (fetch a w).2 in
  memory_cache w1 !! b = Some (v, deadline)
  /\ (fetch b (set_clock t w1)).1 = Ok v
  /\ http_log (fetch b (set_clock t w1)).2 = http_log w1.
Proof.
  intros Hne Hb Ht w1.
  assert (Hb1 : memory_cache w1 !! b = Some (v, deadline)).
  { subst w1.
    destruct (fetch_cases http_get str_of_price a w)
      as [(x & ->)|(x & w' & -> & _ & _ & Hm)]; simpl; [exact Hb|].
    rewrite Hm, lookup_insert_ne by exact Hne. exact Hb. }
  split; [exact Hb1|].
  rewrite (fetch_hit http_get str_of_price b (set_clock t w1) v deadline Hb1 Ht).
  split; reflexivity.
Qed.

End CacheKeys.

Lemma other_entries_survive_witness :
  let w := (fetch_crypto_price coingecko_up show_price "btc" boot).2 in
  let w1 := (fetch_crypto_price coingecko_up show_price "eth" w).2 in
  (fetch_crypto_price coingecko_up show_price "btc" (set_clock 20%Q w1)).1
  = Ok "The current price of Btc is $50000".
Proof.
  intros w w1.
  exact (proj1 (proj2 (other_entries_survive coingecko_up show_price "eth" "btc"
                         "The current price of Btc is $50000" (0 + 30)%Q 20%Q w
                         ltac:(discriminate) eq_refl eq_refl))).
Defined.

Lemma rate_limited_isolated_witness :
  stored 0%Q (redis (rate_limited "alice" boot).2) (rate_limit_key "bob")
  = stored 0%Q (redis boot) (rate_limit_key "bob").
Proof.
  exact (proj1 (proj2 (rate_limited_isolated "alice" boot)) "bob" 0%Q
           ltac:(discriminate)).
Defined.

Lemma update_chat_history_isolated_witness :
  stored 0%Q (redis (update_chat_history "alice" "hi" "ok" boot).2) (history_key "bob")
  = stored 0%Q (redis boot) (history_key "bob").
Proof.
  exact (proj1 (update_chat_history_isolated "alice" "hi" "ok" boot) "bob" 0%Q
           ltac:(discriminate)).
Defined.

Lemma ai_agent_isolated_witness :
  stored 0%Q (redis (ai_agent coingecko_up show_price model_echo chat_request boot).2)
    (history_key "bob")
  = stored 0%Q (redis boot) (history_key "bob").
Proof.
  exact (proj2 (proj1 (ai_agent_isolated coingecko_up show_price model_echo
                         chat_request boot) "bob" 0%Q ltac:(discriminate))).
Defined.

Lemma non_string_action_raises_witness :
  ai_agent coingecko_up show_price model_echo null_action_request offline
  = (Raise AttributeError, offline).
Proof.
  apply (non_string_action_raises coingecko_up show_price model_echo
           null_action_request JNull offline).
  - reflexivity.
  - discriminate.
Defined.
